(** * Monero cnBase58 block codec and standard-address decoder

    A shallow embedding of [src/monero/base58.ts] and
    [src/monero/decodeAddress.ts], followed by the properties of the codec.

    Conventions of the embedding:
    - a [Uint8Array] is a [list byte];
    - a JavaScript string is the list of its UTF-16 code units ([jsstring]);
      [length], [slice] and indexing work on code units, while [for ... of]
      walks code points (a surrogate pair is one step);
    - a [bigint] is a [Z]; [/] and [%] on bigints truncate ([Z.quot], [Z.rem]);
    - a [number] used as a length or index is a [nat];
    - [throw new Error(...)] is the [Err] branch of [result], carrying the
      value that the message interpolates. *)

From Stdlib Require Import Strings.String Strings.Ascii Strings.Byte.
From Stdlib Require Import ZArith List Lia Bool Arith PeanoNat.
Import ListNotations.

Local Open Scope Z_scope.
Local Open Scope list_scope.

(** ** JavaScript values *)

Definition codeunit := N.
Definition jsstring := list codeunit.

(** A string literal of the source, as code units. *)
Definition js (s : string) : jsstring :=
  map N_of_ascii (list_ascii_of_string s).
Arguments js s%_string.

Inductive error : Type :=
| InvalidDecodedBlockSize (decodedSize : nat)
| InvalidEncodedBlockSize (encodedSize : nat)
| InvalidCharacter (c : jsstring)
| InvalidLength (len : nat)
| RangeError.

Inductive result (A : Type) : Type :=
| Ok (a : A)
| Err (e : error).
Arguments Ok {A} a.
Arguments Err {A} e.

Definition bind {A B} (r : result A) (k : A -> result B) : result B :=
  match r with
  | Ok a => k a
  | Err e => Err e
  end.

Notation "'let*' x ':=' r 'in' k" := (bind r (fun x => k))
  (at level 10, x name, r at level 100, k at level 200).

(** [a.subarray(s, e)] and [str.slice(s, e)] for non-negative bounds: both
    clamp to the length of the receiver. *)
Definition subarray {A} (a : list A) (s e : nat) : list A :=
  firstn (e - s) (skipn s a).

(** [a.subarray(s)] and [str.slice(s)]. *)
Definition subarray_from {A} (a : list A) (s : nat) : list A := skipn s a.

(** [out.set(src, offset)] of a typed array: throws a RangeError when the
    source does not fit. *)
Definition typed_set (out src : list byte) (offset : nat) : result (list byte) :=
  if (offset + length src <=? length out)%nat
  then Ok (firstn offset out ++ src ++ skipn (offset + length src) out)
  else Err RangeError.

(** [Number(n)] stored in a byte array, for [n = m & 0xff]. *)
Definition byte_of_Z (n : Z) : byte :=
  match Byte.of_N (Z.to_N n) with
  | Some b => b
  | None => x00
  end.

(** [BigInt(b)] for an element of a byte array. *)
Definition Z_of_byte (b : byte) : Z := Z.of_N (Byte.to_N b).

(** [s[i]]: [undefined] (here [None]) outside the string. *)
Definition charAt (s : jsstring) (i : Z) : option codeunit :=
  if i <? 0 then None else nth_error s (Z.to_nat i).

(** [parts.join("")] on an array whose entries may be [undefined]: an
    [undefined] entry contributes nothing. *)
Definition join_chars (chars : list (option codeunit)) : jsstring :=
  flat_map (fun c => match c with Some u => [u] | None => [] end) chars.

(** Iteration of [for (const c of str)]: code points, a high surrogate
    followed by a low surrogate being a single step. *)
Definition is_high_surrogate (u : codeunit) : bool :=
  ((55296 <=? u) && (u <=? 56319))%N.
Definition is_low_surrogate (u : codeunit) : bool :=
  ((56320 <=? u) && (u <=? 57343))%N.

Fixpoint code_points (s : jsstring) : list jsstring :=
  match s with
  | [] => []
  | u :: t =>
      match t with
      | v :: t' =>
          if is_high_surrogate u && is_low_surrogate v
          then [u; v] :: code_points t'
          else [u] :: code_points t
      | [] => [[u]]
      end
  end.

(** [hay.indexOf(needle)]: position of the first occurrence of [needle] as a
    substring, [-1] (here [None]) when there is none. *)
Fixpoint starts_with (needle hay : jsstring) : bool :=
  match needle, hay with
  | [], _ => true
  | _ :: _, [] => false
  | a :: n', b :: h' => (a =? b)%N && starts_with n' h'
  end.

Fixpoint indexOf_from (hay needle : jsstring) (i : nat) : option nat :=
  if starts_with needle hay then Some i
  else match hay with
       | [] => None
       | _ :: h' => indexOf_from h' needle (S i)
       end.

Definition indexOf (hay needle : jsstring) : option nat :=
  indexOf_from hay needle 0.

(** ** src/monero/base58.ts *)

Definition ALPHABET : jsstring :=
  js "123456789ABCDEFGHJKLMNPQRSTUVWXYZabcdefghijkmnopqrstuvwxyz".
Definition BASE : Z := 58.

Definition FULL_BLOCK_SIZE : nat := 8.
Definition FULL_ENCODED_BLOCK_SIZE : nat := 11.

Definition getEncodedBlockSize (decodedSize : nat) : result nat :=
  match decodedSize with
  | 1 => Ok 2
  | 2 => Ok 3
  | 3 => Ok 5
  | 4 => Ok 6
  | 5 => Ok 7
  | 6 => Ok 9
  | 7 => Ok 10
  | 8 => Ok 11
  | _ => Err (InvalidDecodedBlockSize decodedSize)
  end%nat.

Definition getDecodedBlockSize (encodedSize : nat) : result nat :=
  match encodedSize with
  | 2 => Ok 1
  | 3 => Ok 2
  | 5 => Ok 3
  | 6 => Ok 4
  | 7 => Ok 5
  | 9 => Ok 6
  | 10 => Ok 7
  | 11 => Ok 8
  | _ => Err (InvalidEncodedBlockSize encodedSize)
  end%nat.

Definition bytesToBigInt (bytes : list byte) : Z :=
  fold_left (fun n b => Z.shiftl n 8 + Z_of_byte b) bytes 0.

(** [out[i] = b] on a typed array: a write outside the array is ignored. *)
Fixpoint store_at (out : list byte) (i : nat) (b : byte) : list byte :=
  match out, i with
  | [], _ => []
  | _ :: t, O => b :: t
  | x :: t, S i' => x :: store_at t i' b
  end.

(** The loop [for (let i = size - 1; i >= 0; i--)] of [bigIntToFixedBytes];
    [k] is [i + 1]. *)
Fixpoint bigIntToFixedBytes_loop (k : nat) (n : Z) (out : list byte) : list byte :=
  match k with
  | O => out
  | S i => bigIntToFixedBytes_loop i (Z.shiftr n 8)
             (store_at out i (byte_of_Z (Z.land n 255)))
  end.

Definition bigIntToFixedBytes (n : Z) (size : nat) : list byte :=
  bigIntToFixedBytes_loop size n (repeat x00 size).

(** The loop of [encodeBlock]; [k] iterations remain. *)
Fixpoint encodeBlock_loop (k : nat) (num : Z) (chars : list (option codeunit))
  : list (option codeunit) :=
  match k with
  | O => chars
  | S k' =>
      let rem := Z.rem num BASE in
      encodeBlock_loop k' (Z.quot num BASE) (chars ++ [charAt ALPHABET rem])
  end.

Definition encodeBlock (data : list byte) (encodedSize : nat) : jsstring :=
  let num := bytesToBigInt data in
  let chars := encodeBlock_loop encodedSize num [] in
  join_chars (rev chars).

(** The loop [while (n > 0n)] of [bigIntToBytesMinimal], bounded by [fuel];
    [bigIntToBytesMinimal_fuel_enough] shows that the bound used below is never the
    reason why the loop stops. *)
Fixpoint bigIntToBytesMinimal_loop (fuel : nat) (n : Z) (bytes : list byte)
  : list byte :=
  match fuel with
  | O => bytes
  | S fuel' =>
      if 0 <? n
      then bigIntToBytesMinimal_loop fuel' (Z.shiftr n 8)
             (bytes ++ [byte_of_Z (Z.land n 255)])
      else bytes
  end.

Definition minimal_fuel (n : Z) : nat := S (Z.to_nat (Z.log2 n)).

Definition bigIntToBytesMinimal (n : Z) : list byte :=
  if n =? 0 then [x00]
  else rev (bigIntToBytesMinimal_loop (minimal_fuel n) n []).

(** The digit loop of [decodeBlock], over the code points of the group. *)
Fixpoint decodeBlock_loop (cs : list jsstring) (num : Z) : result Z :=
  match cs with
  | [] => Ok num
  | c :: cs' =>
      match indexOf ALPHABET c with
      | None => Err (InvalidCharacter c)
      | Some digit => decodeBlock_loop cs' (num * BASE + Z.of_nat digit)
      end
  end.

Definition decodeBlock (data : jsstring) (decodedSize : nat) : result (list byte) :=
  let* num := decodeBlock_loop (code_points data) 0 in
  let full := bigIntToBytesMinimal num in
  let out := repeat x00 decodedSize in
  let start :=
    if (decodedSize <? length full)%nat then (length full - decodedSize)%nat
    else 0%nat in
  let len := Nat.min (length full) decodedSize in
  typed_set out (subarray full start (start + len)) (decodedSize - len).

(** [for (let i = 0; i < count; i++) st = body(i, st)], where the body may
    throw. *)
Fixpoint for_each {S} (body : nat -> S -> result S) (idx : list nat) (st : S)
  : result S :=
  match idx with
  | [] => Ok st
  | i :: idx' => let* st' := body i st in for_each body idx' st'
  end.

Definition for_range {S} (count : nat) (body : nat -> S -> result S) (st : S)
  : result S :=
  for_each body (seq 0 count) st.

Definition cnBase58Encode (data : list byte) : result jsstring :=
  let parts : list jsstring := [] in
  let fullBlockCount := (length data / FULL_BLOCK_SIZE)%nat in
  let lastBlockSize := (length data mod FULL_BLOCK_SIZE)%nat in
  let* parts :=
    for_range fullBlockCount
      (fun i parts =>
         let start := (i * FULL_BLOCK_SIZE)%nat in
         let block := subarray data start (start + FULL_BLOCK_SIZE) in
         Ok (parts ++ [encodeBlock block FULL_ENCODED_BLOCK_SIZE]))
      parts in
  let* parts :=
    if (0 <? lastBlockSize)%nat then
      let block := subarray_from data (fullBlockCount * FULL_BLOCK_SIZE) in
      let* encodedSize := getEncodedBlockSize lastBlockSize in
      Ok (parts ++ [encodeBlock block encodedSize])
    else Ok parts in
  Ok (concat parts).

Definition cnBase58Decode (encoded : jsstring) : result (list byte) :=
  let bytes : list byte := [] in
  let fullBlockCount := (length encoded / FULL_ENCODED_BLOCK_SIZE)%nat in
  let lastBlockSize := (length encoded mod FULL_ENCODED_BLOCK_SIZE)%nat in
  let* bytes :=
    for_range fullBlockCount
      (fun i bytes =>
         let start := (i * FULL_ENCODED_BLOCK_SIZE)%nat in
         let blockStr := subarray encoded start (start + FULL_ENCODED_BLOCK_SIZE) in
         let* decodedBlock := decodeBlock blockStr FULL_BLOCK_SIZE in
         Ok (bytes ++ decodedBlock))
      bytes in
  let* bytes :=
    if (0 <? lastBlockSize)%nat then
      let blockStr := subarray_from encoded (fullBlockCount * FULL_ENCODED_BLOCK_SIZE) in
      let* decodedSize := getDecodedBlockSize lastBlockSize in
      let* decodedBlock := decodeBlock blockStr decodedSize in
      Ok (bytes ++ decodedBlock)
    else Ok bytes in
  Ok bytes.

(** ** src/monero/decodeAddress.ts *)

Record DecodedMoneroAddress : Type := {
  prefix : byte;
  publicSpendKeyHex : jsstring;
  publicViewKeyHex : jsstring;
  checksumHex : jsstring
}.

(** [Buffer.from(b).toString("hex")]: two lowercase hexadecimal digits per
    byte, high nibble first. *)
Definition HEX_DIGITS : jsstring := js "0123456789abcdef".

Definition hex_digit (n : Z) : codeunit :=
  nth (Z.to_nat n) HEX_DIGITS 0%N.

Definition bytesToHex (b : list byte) : jsstring :=
  flat_map (fun x => [hex_digit (Z.shiftr (Z_of_byte x) 4);
                      hex_digit (Z.land (Z_of_byte x) 15)]) b.

Definition decodeStandardAddress (address : jsstring) : result DecodedMoneroAddress :=
  let* decoded := cnBase58Decode address in
  if negb (length decoded =? 69)%nat
  then Err (InvalidLength (length decoded))
  else
    let prefix := nth 0 decoded x00 in
    let publicSpend := subarray decoded 1 33 in
    let publicView := subarray decoded 33 65 in
    let checksum := subarray decoded 65 69 in
    Ok {| prefix := prefix;
          publicSpendKeyHex := bytesToHex publicSpend;
          publicViewKeyHex := bytesToHex publicView;
          checksumHex := bytesToHex checksum |}.

(** ** src/moneroUri.ts *)

Record MoneroUriOpts : Type := {
  address : jsstring;
  amount : option jsstring;        (* [None] is [undefined] or absent *)
  description : option jsstring
}.

(** [if (v)] on a value that is a string or [undefined]: true on a
    non-empty string only. *)
Definition truthy (v : option jsstring) : bool :=
  match v with
  | Some (_ :: _) => true
  | _ => false
  end.

Definition string_of (v : option jsstring) : jsstring :=
  match v with
  | Some s => s
  | None => []
  end.

(** [URLSearchParams]: the list of its name-value pairs, in order.
    [params.set(name, value)] replaces the value of the first pair of that
    name and drops the other pairs of that name, or appends a new pair. *)
Definition URLSearchParams : Type := list (jsstring * jsstring).

Definition jsstring_eqb (a b : jsstring) : bool :=
  if list_eq_dec N.eq_dec a b then true else false.

Fixpoint params_set (params : URLSearchParams) (name value : jsstring)
  : URLSearchParams :=
  match params with
  | [] => [(name, value)]
  | (n, v) :: rest =>
      if jsstring_eqb n name
      then (n, value) :: filter (fun p => negb (jsstring_eqb (fst p) name)) rest
      else (n, v) :: params_set rest name value
  end.

(** [params.toString()], the application/x-www-form-urlencoded serializer:
    names and values are taken as sequences of scalar values (a surrogate
    that is not part of a pair counts as U+FFFD), written in UTF-8, and each
    byte is kept when it is an ASCII letter or digit or one of [*-._],
    written [+] when it is a space, and [%XX] (upper case) otherwise; pairs
    are written [name=value] and joined by [&]. *)
Definition scalar_value (c : jsstring) : N :=
  match c with
  | [u] => if is_high_surrogate u || is_low_surrogate u then 65533%N else u
  | [hi; lo] => (65536 + (hi - 55296) * 1024 + (lo - 56320))%N
  | _ => 65533%N
  end.

Definition utf8_encode (cp : N) : list N :=
  (if cp <? 128 then [cp]
   else if cp <? 2048 then [192 + cp / 64; 128 + cp mod 64]
   else if cp <? 65536
        then [224 + cp / 4096; 128 + (cp / 64) mod 64; 128 + cp mod 64]
        else [240 + cp / 262144; 128 + (cp / 4096) mod 64;
              128 + (cp / 64) mod 64; 128 + cp mod 64])%N.

Definition urlencoded_plain (b : N) : bool :=
  ((b =? 42) || (b =? 45) || (b =? 46) || (b =? 95)
   || ((48 <=? b) && (b <=? 57))
   || ((65 <=? b) && (b <=? 90))
   || ((97 <=? b) && (b <=? 122)))%N.

Definition HEX_UPPER : jsstring := js "0123456789ABCDEF".

Definition urlencoded_byte (b : N) : jsstring :=
  if (b =? 32)%N then js "+"
  else if urlencoded_plain b then [b]
  else js "%" ++ [nth (N.to_nat (b / 16)) HEX_UPPER 0%N;
                  nth (N.to_nat (b mod 16)) HEX_UPPER 0%N].

Definition urlencoded_string (s : jsstring) : jsstring :=
  flat_map urlencoded_byte
    (flat_map (fun c => utf8_encode (scalar_value c)) (code_points s)).

Fixpoint URLSearchParams_toString (params : URLSearchParams) : jsstring :=
  match params with
  | [] => []
  | (n, v) :: rest =>
      urlencoded_string n ++ js "=" ++ urlencoded_string v
      ++ match rest with
         | [] => []
         | _ :: _ => js "&" ++ URLSearchParams_toString rest
         end
  end.

Definition buildMoneroUri (opts : MoneroUriOpts) : jsstring :=
  let params : URLSearchParams := [] in
  let params :=
    if truthy (amount opts)
    then params_set params (js "tx_amount") (string_of (amount opts))
    else params in
  let params :=
    if truthy (description opts)
    then params_set params (js "tx_description") (string_of (description opts))
    else params in
  let qs := URLSearchParams_toString params in
  match qs with
  | _ :: _ => js "monero:" ++ address opts ++ js "?" ++ qs
  | [] => js "monero:" ++ address opts
  end.

(** Characters that can stand in a serialized value, and in a serialized
    query; the number of parameters that [buildMoneroUri] sets; a string
    whose code units are 16-bit values. *)
Definition isValueChar (u : codeunit) : bool :=
  urlencoded_plain u || (u =? 43)%N || (u =? 37)%N.

Definition paramCount (opts : MoneroUriOpts) : nat :=
  ((if truthy (amount opts) then 1 else 0)
   + (if truthy (description opts) then 1 else 0))%nat.

Definition wellFormed (s : jsstring) : Prop :=
  Forall (fun u => (u < 65536)%N) s.

Definition isQueryChar (u : codeunit) : bool :=
  isValueChar u || (u =? 61)%N || (u =? 38)%N.

(** A sample request: an amount and a description with a space. *)
Definition sample_opts : MoneroUriOpts :=
  {| address := js "4AdUndXHHZ";
     amount := Some (js "0.1");
     description := Some (js "Coffee donation") |}.

(** ** Notions used to state the properties *)

(** Positional notation in base [B]: the [k] least significant digits of
    [v], most significant first, and the value of a digit sequence. *)
Fixpoint digits (B : Z) (k : nat) (v : Z) : list Z :=
  match k with
  | O => []
  | S k' => digits B k' (v / B) ++ [v mod B]
  end.

Definition horner (B : Z) (ds : list Z) : Z :=
  fold_left (fun acc d => acc * B + d) ds 0.

Definition isDigit (B d : Z) : Prop := 0 <= d < B.

(** The consecutive full groups of width [w] of a sequence, and what is left
    after them. *)
Definition groups {A} (w : nat) (s : list A) : list (list A) :=
  map (fun i => subarray s (i * w) (i * w + w)) (seq 0 (length s / w)).

Definition trailing {A} (w : nat) (s : list A) : list A :=
  subarray_from s (length s / w * w).

(** Applying a fallible function to every element, first failure wins. *)
Fixpoint traverse {X Y} (f : X -> result Y) (l : list X) : result (list Y) :=
  match l with
  | [] => Ok []
  | x :: l' =>
      let* y := f x in
      let* ys := traverse f l' in
      Ok (y :: ys)
  end.

(** What [cnBase58Decode] does with the characters left after the full
    groups. *)
Definition decodeLast (t : jsstring) : result (list byte) :=
  if (0 <? length t)%nat then
    let* decodedSize := getDecodedBlockSize (length t) in
    decodeBlock t decodedSize
  else Ok [].

(** The value of the table of [getDecodedBlockSize], 0 where it has no
    entry; and the same for [getEncodedBlockSize]. *)
Definition decodedWidth (encodedSize : nat) : nat :=
  match getDecodedBlockSize encodedSize with
  | Ok n => n
  | Err _ => 0
  end.

Definition encodedWidth (decodedSize : nat) : nat :=
  match getEncodedBlockSize decodedSize with
  | Ok n => n
  | Err _ => 0
  end.

(** The size table as the specification prints it (decoded bytes 1..8 give
    2, 3, 5, 6, 7, 9, 10, 11 characters), with width 0 for an absent
    trailing block; and its inverse, 0 where the table has no entry. These
    two follow the specification's table, to be compared with
    [getEncodedBlockSize] and [getDecodedBlockSize]. *)
Definition spec_encoded_width (decodedSize : nat) : nat :=
  nth decodedSize [0; 2; 3; 5; 6; 7; 9; 10; 11]%nat 0%nat.

Definition spec_decoded_width (encodedSize : nat) : nat :=
  nth encodedSize [0; 0; 1; 2; 0; 3; 4; 5; 0; 6; 7; 8]%nat 0%nat.

(** A group fits its block when the number it denotes needs no more than
    [decodedSize] bytes, so that [decodeBlock] drops no leading byte. *)
Definition groupFits (g : jsstring) (decodedSize : nat) : bool :=
  match decodeBlock_loop (code_points g) 0 with
  | Ok num => num <? 256 ^ Z.of_nat decodedSize
  | Err _ => false
  end.

Definition noOverflow (encoded : jsstring) : bool :=
  forallb (fun g => groupFits g FULL_BLOCK_SIZE)
          (groups FULL_ENCODED_BLOCK_SIZE encoded)
  && groupFits (trailing FULL_ENCODED_BLOCK_SIZE encoded)
               (decodedWidth (length encoded mod FULL_ENCODED_BLOCK_SIZE)).

(** Membership of a code unit in the alphabet, and of all the code units of
    a string. *)
Definition inAlphabet (u : codeunit) : bool :=
  existsb (N.eqb u) ALPHABET.

Definition isHexDigit (u : codeunit) : bool :=
  existsb (N.eqb u) HEX_DIGITS.

(** Reading a hexadecimal rendering back: the values of the successive
    pairs of characters, a character counting for its position in
    [HEX_DIGITS]. *)
Definition hexValue (u : codeunit) : Z :=
  match indexOf HEX_DIGITS [u] with
  | Some d => Z.of_nat d
  | None => 0
  end.

Fixpoint parseHex (s : jsstring) : list Z :=
  match s with
  | hi :: lo :: s' => (16 * hexValue hi + hexValue lo) :: parseHex s'
  | _ => []
  end.

(** A sample standard address: prefix 0x12, two keys and a checksum, its
    text and the record it decodes to. *)
Definition sample_payload : list byte :=
  x12 :: repeat xab 32 ++ repeat xcd 32 ++ [x01; x02; x03; x04].

Definition sample_address : jsstring :=
  Eval vm_compute in
    match cnBase58Encode sample_payload with
    | Ok s => s
    | Err _ => []
    end.

Definition sample_record : DecodedMoneroAddress :=
  {| prefix := x12;
     publicSpendKeyHex :=
       js "abababababababababababababababababababababababababababababababab";
     publicViewKeyHex :=
       js "cdcdcdcdcdcdcdcdcdcdcdcdcdcdcdcdcdcdcdcdcdcdcdcdcdcdcdcdcdcdcdcd";
     checksumHex := js "01020304" |}.

(** An address of 95 times the last character of the alphabet: every one
    of its groups overflows its block. *)
Definition overflowing_address : jsstring := repeat 122%N 95.

(** The digit value of a code unit of the alphabet (0 for any other code
    unit), and the code unit of a digit value. *)
Definition digitOf (u : codeunit) : Z :=
  match indexOf ALPHABET [u] with
  | Some d => Z.of_nat d
  | None => 0
  end.

Definition alphaChar (d : Z) : codeunit :=
  match charAt ALPHABET d with
  | Some u => u
  | None => 0%N
  end.

(** ** Sanity checks on concrete inputs *)

Example encode_ff :
  cnBase58Encode [x00; x00; x00; x00; x00; x00; x00; xff] = Ok (js "1111111115Q").
Proof. vm_compute. reflexivity. Qed.

Example decode_ff :
  cnBase58Decode (js "1111111115Q") = Ok [x00; x00; x00; x00; x00; x00; x00; xff].
Proof. vm_compute. reflexivity. Qed.

(** The characters that the alphabet leaves out are rejected, and so are
    the lengths that the inverse table leaves out. *)
Example decode_zero : cnBase58Decode (js "10") = Err (InvalidCharacter (js "0")).
Proof. vm_compute. reflexivity. Qed.

Example decode_capital_o : cnBase58Decode (js "1O") = Err (InvalidCharacter (js "O")).
Proof. vm_compute. reflexivity. Qed.

Example decode_capital_i : cnBase58Decode (js "1I") = Err (InvalidCharacter (js "I")).
Proof. vm_compute. reflexivity. Qed.

Example decode_small_l : cnBase58Decode (js "1l") = Err (InvalidCharacter (js "l")).
Proof. vm_compute. reflexivity. Qed.

Example decode_length_1 : cnBase58Decode (js "1") = Err (InvalidEncodedBlockSize 1).
Proof. vm_compute. reflexivity. Qed.

Example decode_length_4 : cnBase58Decode (js "1111") = Err (InvalidEncodedBlockSize 4).
Proof. vm_compute. reflexivity. Qed.

Example decode_length_8 :
  cnBase58Decode (js "11111111") = Err (InvalidEncodedBlockSize 8).
Proof. vm_compute. reflexivity. Qed.

Example sample_address_length : length sample_address = 95%nat.
Proof. reflexivity. Qed.

Example sample_address_decodes :
  decodeStandardAddress sample_address = Ok sample_record.
Proof. vm_compute. reflexivity. Qed.

(** ** Positional notation *)

Section Radix.

Variable B : Z.
Hypothesis B_gt_1 : 1 < B.

Lemma horner_snoc (ds : list Z) (d : Z) :
  horner B (ds ++ [d]) = horner B ds * B + d.
Proof. unfold horner. rewrite fold_left_app. reflexivity. Qed.

Lemma digits_length (k : nat) (v : Z) : length (digits B k v) = k.
Proof.
  revert v. induction k as [|k IH]; intros v; simpl; [reflexivity|].
  rewrite length_app, IH. simpl. lia.
Qed.

Lemma digits_range (k : nat) (v : Z) : Forall (isDigit B) (digits B k v).
Proof.
  revert v. induction k as [|k IH]; intros v; simpl; [constructor|].
  apply Forall_app. split; [apply IH|].
  constructor; [|constructor]. unfold isDigit. apply Z.mod_pos_bound. lia.
Qed.

Lemma horner_digits (k : nat) (v : Z) :
  horner B (digits B k v) = v mod B ^ Z.of_nat k.
Proof.
  revert v. induction k as [|k IH]; intros v.
  - simpl. rewrite Z.mod_1_r. reflexivity.
  - simpl digits. rewrite horner_snoc, IH.
    rewrite Nat2Z.inj_succ, Z.pow_succ_r by lia.
    rewrite Z.rem_mul_r by (try apply Z.pow_pos_nonneg; lia). lia.
Qed.

Lemma horner_range (ds : list Z) :
  Forall (isDigit B) ds -> 0 <= horner B ds < B ^ Z.of_nat (length ds).
Proof.
  induction ds as [|d ds IH] using rev_ind; intros H.
  - simpl. unfold horner. simpl. lia.
  - apply Forall_app in H. destruct H as [Hds Hd].
    inversion Hd as [|? ? Hd' _]; subst. unfold isDigit in Hd'.
    specialize (IH Hds). rewrite horner_snoc, length_app. simpl length.
    rewrite Nat.add_1_r, Nat2Z.inj_succ, Z.pow_succ_r by lia. nia.
Qed.

Lemma digits_horner (ds : list Z) :
  Forall (isDigit B) ds -> digits B (length ds) (horner B ds) = ds.
Proof.
  induction ds as [|d ds IH] using rev_ind; intros H; [reflexivity|].
  apply Forall_app in H. destruct H as [Hds Hd].
  inversion Hd as [|? ? Hd' _]; subst. unfold isDigit in Hd'.
  rewrite length_app. simpl length. rewrite Nat.add_1_r. simpl digits.
  rewrite horner_snoc.
  replace ((horner B ds * B + d) / B) with (horner B ds)
    by (apply Z.div_unique with d; lia).
  replace ((horner B ds * B + d) mod B) with d
    by (apply Z.mod_unique with (horner B ds); lia).
  rewrite IH by assumption. reflexivity.
Qed.

Lemma digits_zero (k : nat) : digits B k 0 = repeat 0 k.
Proof.
  induction k as [|k IH]; [reflexivity|].
  simpl digits. rewrite Z.div_0_l, Z.mod_0_l, IH by lia.
  clear IH. induction k as [|k IH]; [reflexivity|]. simpl. rewrite IH. reflexivity.
Qed.

(** Widening a representation pads it with zero digits on the left. *)
Lemma digits_pad (m j : nat) (v : Z) :
  0 <= v < B ^ Z.of_nat m ->
  digits B (j + m) v = repeat 0 j ++ digits B m v.
Proof.
  revert v. induction m as [|m IH]; intros v Hv.
  - simpl in Hv. assert (v = 0) by lia. subst v.
    rewrite Nat.add_0_r, digits_zero. simpl. rewrite app_nil_r. reflexivity.
  - rewrite Nat.add_succ_r. simpl digits. rewrite IH, app_assoc; [reflexivity|].
    rewrite Nat2Z.inj_succ, Z.pow_succ_r in Hv by lia.
    split; [apply Z.div_pos; lia|].
    apply Z.div_lt_upper_bound; lia.
Qed.

(** Narrowing a representation drops digits on the left. *)
Lemma digits_drop (m j : nat) (v : Z) :
  skipn j (digits B (j + m) v) = digits B m v.
Proof.
  revert v. induction m as [|m IH]; intros v.
  - rewrite Nat.add_0_r. apply skipn_all2. rewrite digits_length. lia.
  - rewrite Nat.add_succ_r. simpl digits.
    rewrite skipn_app, IH, digits_length.
    replace (j - (j + m))%nat with 0%nat by lia. reflexivity.
Qed.

End Radix.

(** ** Bytes and big integers *)

Lemma shiftr_8 (n : Z) : Z.shiftr n 8 = n / 256.
Proof. rewrite Z.shiftr_div_pow2 by lia. reflexivity. Qed.

Lemma shiftl_8 (n : Z) : Z.shiftl n 8 = n * 256.
Proof. rewrite Z.shiftl_mul_pow2 by lia. reflexivity. Qed.

Lemma land_255 (n : Z) : Z.land n 255 = n mod 256.
Proof. change 255 with (Z.ones 8). rewrite Z.land_ones by lia. reflexivity. Qed.

Lemma Z_of_byte_range (b : byte) : isDigit 256 (Z_of_byte b).
Proof.
  unfold isDigit, Z_of_byte. pose proof (Byte.to_N_bounded b). lia.
Qed.

Lemma byte_of_Z_of_byte (b : byte) : byte_of_Z (Z_of_byte b) = b.
Proof.
  unfold byte_of_Z, Z_of_byte. rewrite N2Z.id, Byte.of_to_N. reflexivity.
Qed.

Lemma Z_of_byte_of_Z (z : Z) : isDigit 256 z -> Z_of_byte (byte_of_Z z) = z.
Proof.
  unfold isDigit, byte_of_Z, Z_of_byte. intros Hz.
  destruct (Byte.of_N (Z.to_N z)) as [b|] eqn:E.
  - apply Byte.to_of_N in E. rewrite E. lia.
  - apply Byte.of_N_None_iff in E. lia.
Qed.

Lemma map_byte_of_Z_of_byte (bs : list byte) :
  map byte_of_Z (map Z_of_byte bs) = bs.
Proof.
  rewrite map_map. rewrite <- (map_id bs) at 2.
  apply map_ext. intros b. apply byte_of_Z_of_byte.
Qed.

Lemma map_Z_of_byte_of_Z (ds : list Z) :
  Forall (isDigit 256) ds -> map Z_of_byte (map byte_of_Z ds) = ds.
Proof.
  induction 1 as [|d ds Hd _ IH]; simpl; [reflexivity|].
  rewrite Z_of_byte_of_Z, IH by assumption. reflexivity.
Qed.

Lemma Forall_Z_of_byte (bs : list byte) :
  Forall (isDigit 256) (map Z_of_byte bs).
Proof.
  apply Forall_forall. intros d Hd. apply in_map_iff in Hd.
  destruct Hd as [b [<- _]]. apply Z_of_byte_range.
Qed.

Lemma bytesToBigInt_horner (bs : list byte) :
  bytesToBigInt bs = horner 256 (map Z_of_byte bs).
Proof.
  unfold bytesToBigInt, horner. generalize 0.
  induction bs as [|b bs IH]; intros acc; cbn [fold_left map]; [reflexivity|].
  rewrite IH, shiftl_8. reflexivity.
Qed.

Lemma bytesToBigInt_range (bs : list byte) :
  0 <= bytesToBigInt bs < 256 ^ Z.of_nat (length bs).
Proof.
  rewrite bytesToBigInt_horner.
  pose proof (horner_range 256 ltac:(lia) _ (Forall_Z_of_byte bs)) as H.
  rewrite length_map in H. exact H.
Qed.

(** Writing a big integer on [size] bytes, the source's way. *)
Lemma skipn_store_at (out : list byte) (i : nat) (b : byte) :
  (i < length out)%nat -> skipn i (store_at out i b) = b :: skipn (S i) out.
Proof.
  revert i. induction out as [|x out IH]; intros i Hi; simpl in Hi; [lia|].
  destruct i as [|i]; simpl; [reflexivity|].
  apply IH. lia.
Qed.

Lemma store_at_length (out : list byte) (i : nat) (b : byte) :
  length (store_at out i b) = length out.
Proof.
  revert i. induction out as [|x out IH]; intros i; [reflexivity|].
  destruct i; simpl; [reflexivity|]. rewrite IH. reflexivity.
Qed.

Lemma bigIntToFixedBytes_loop_digits (k : nat) (n : Z) (out : list byte) :
  (k <= length out)%nat ->
  bigIntToFixedBytes_loop k n out
  = map byte_of_Z (digits 256 k n) ++ skipn k out.
Proof.
  revert n out. induction k as [|k IH]; intros n out Hk; [reflexivity|].
  simpl bigIntToFixedBytes_loop.
  rewrite IH by (rewrite store_at_length; lia).
  rewrite skipn_store_at by lia.
  simpl digits. rewrite map_app, <- app_assoc, shiftr_8, land_255. reflexivity.
Qed.

Lemma bigIntToFixedBytes_digits (n : Z) (size : nat) :
  bigIntToFixedBytes n size = map byte_of_Z (digits 256 size n).
Proof.
  unfold bigIntToFixedBytes.
  rewrite bigIntToFixedBytes_loop_digits by (rewrite repeat_length; lia).
  rewrite skipn_all2 by (rewrite repeat_length; lia).
  apply app_nil_r.
Qed.

Lemma bigIntToFixedBytes_length (n : Z) (size : nat) :
  length (bigIntToFixedBytes n size) = size.
Proof. rewrite bigIntToFixedBytes_digits, length_map. apply digits_length. Qed.

Lemma bigIntToFixedBytes_bytesToBigInt (bs : list byte) :
  bigIntToFixedBytes (bytesToBigInt bs) (length bs) = bs.
Proof.
  rewrite bigIntToFixedBytes_digits, bytesToBigInt_horner.
  rewrite <- (length_map Z_of_byte bs).
  rewrite digits_horner by (try apply Forall_Z_of_byte; lia).
  apply map_byte_of_Z_of_byte.
Qed.

Lemma bytesToBigInt_bigIntToFixedBytes (n : Z) (size : nat) :
  bytesToBigInt (bigIntToFixedBytes n size) = n mod 256 ^ Z.of_nat size.
Proof.
  rewrite bigIntToFixedBytes_digits, bytesToBigInt_horner.
  rewrite map_Z_of_byte_of_Z by (apply digits_range; lia).
  apply horner_digits. lia.
Qed.

(** The [while] loop of [bigIntToBytesMinimal]: with [n < 2 ^ fuel] it stops
    because [n] reached zero, and it has then written the digits of [n] in
    base 256, least significant first. *)
Lemma bigIntToBytesMinimal_loop_digits (fuel : nat) (n : Z) (bytes : list byte) :
  0 <= n < 2 ^ Z.of_nat fuel ->
  exists m : nat,
    bigIntToBytesMinimal_loop fuel n bytes
    = bytes ++ rev (map byte_of_Z (digits 256 m n))
    /\ n < 256 ^ Z.of_nat m
    /\ (0 < n -> (0 < m)%nat).
Proof.
  revert n bytes. induction fuel as [|fuel IH]; intros n bytes Hn.
  - exists 0%nat. simpl in *. rewrite app_nil_r. repeat split; lia.
  - simpl bigIntToBytesMinimal_loop. destruct (0 <? n) eqn:Hpos.
    + apply Z.ltb_lt in Hpos.
      rewrite Nat2Z.inj_succ, Z.pow_succ_r in Hn by lia.
      destruct (IH (Z.shiftr n 8) (bytes ++ [byte_of_Z (Z.land n 255)])) as [m [Hm [Hlt _]]].
      { rewrite shiftr_8. split; [apply Z.div_pos; lia|].
        apply Z.div_lt_upper_bound; lia. }
      exists (S m). rewrite Hm. simpl digits.
      rewrite map_app, rev_app_distr, <- app_assoc, shiftr_8, land_255.
      repeat split; [|lia].
      rewrite Nat2Z.inj_succ, Z.pow_succ_r by lia.
      rewrite shiftr_8 in Hlt.
      pose proof (Z.div_mod n 256 ltac:(lia)).
      pose proof (Z.mod_pos_bound n 256 ltac:(lia)). lia.
    + apply Z.ltb_ge in Hpos. exists 0%nat. simpl.
      rewrite app_nil_r. repeat split; lia.
Qed.

Lemma bigIntToBytesMinimal_fuel_enough (fuel extra : nat) (n : Z) (bytes : list byte) :
  0 <= n < 2 ^ Z.of_nat fuel ->
  bigIntToBytesMinimal_loop (fuel + extra) n bytes
  = bigIntToBytesMinimal_loop fuel n bytes.
Proof.
  revert n bytes. induction fuel as [|fuel IH]; intros n bytes Hn.
  - simpl in Hn. assert (n = 0) by lia. subst n.
    destruct extra; reflexivity.
  - simpl. destruct (0 <? n) eqn:Hpos; [|reflexivity].
    apply Z.ltb_lt in Hpos. apply IH.
    rewrite Nat2Z.inj_succ, Z.pow_succ_r in Hn by lia.
    rewrite shiftr_8. split; [apply Z.div_pos; lia|].
    apply Z.div_lt_upper_bound; lia.
Qed.

Lemma minimal_fuel_bound (n : Z) : 0 <= n -> n < 2 ^ Z.of_nat (minimal_fuel n).
Proof.
  intros Hn. unfold minimal_fuel.
  destruct (Z.eq_dec n 0) as [->|Hnz].
  - simpl. lia.
  - apply Z.log2_lt_pow2; [lia|].
    pose proof (Z.log2_nonneg n). lia.
Qed.

(** The bound [minimal_fuel n] is enough: a larger one changes nothing. *)
Lemma bigIntToBytesMinimal_terminates (n : Z) (extra : nat) :
  0 <= n ->
  bigIntToBytesMinimal_loop (minimal_fuel n + extra) n []
  = bigIntToBytesMinimal_loop (minimal_fuel n) n [].
Proof.
  intros Hn. apply bigIntToBytesMinimal_fuel_enough.
  split; [assumption|]. apply minimal_fuel_bound. assumption.
Qed.

Lemma bigIntToBytesMinimal_digits (n : Z) :
  0 <= n ->
  exists m : nat,
    bigIntToBytesMinimal n = map byte_of_Z (digits 256 m n)
    /\ n < 256 ^ Z.of_nat m /\ (0 < m)%nat.
Proof.
  intros Hn. unfold bigIntToBytesMinimal.
  destruct (n =? 0) eqn:Hz.
  - apply Z.eqb_eq in Hz. subst n. exists 1%nat. simpl. repeat split; lia.
  - apply Z.eqb_neq in Hz.
    destruct (bigIntToBytesMinimal_loop_digits (minimal_fuel n) n []
                (conj Hn (minimal_fuel_bound n Hn))) as [m [Hm [Hlt Hpos]]].
    exists m. rewrite Hm. simpl. rewrite rev_involutive.
    repeat split; [assumption|]. apply Hpos. lia.
Qed.

(** ** The alphabet *)

Lemma inAlphabet_In (u : codeunit) : inAlphabet u = true <-> In u ALPHABET.
Proof.
  unfold inAlphabet. rewrite existsb_exists. split.
  - intros [x [Hx E]]. apply N.eqb_eq in E. subst. assumption.
  - intros H. exists u. split; [assumption|apply N.eqb_refl].
Qed.

Lemma alphabet_ascii (u : codeunit) : inAlphabet u = true -> (u < 128)%N.
Proof.
  intros H. apply inAlphabet_In in H.
  assert (F : forallb (fun x => x <? 128)%N ALPHABET = true) by (vm_compute; reflexivity).
  rewrite forallb_forall in F. apply N.ltb_lt. apply F. assumption.
Qed.

Lemma alphabet_not_surrogate (u : codeunit) :
  inAlphabet u = true -> is_high_surrogate u = false.
Proof.
  intros H. apply alphabet_ascii in H. unfold is_high_surrogate.
  apply andb_false_iff. left. apply N.leb_gt. lia.
Qed.

Lemma indexOf_from_head (hay : jsstring) (u : codeunit) (rest : jsstring) (i j : nat) :
  indexOf_from hay (u :: rest) i = Some j -> In u hay.
Proof.
  revert i. induction hay as [|h hay IH]; intros i; simpl; [discriminate|].
  destruct (u =? h)%N eqn:E.
  - intros _. apply N.eqb_eq in E. left. congruence.
  - simpl. intros H. right. eapply IH. eassumption.
Qed.

Lemma indexOf_from_single (hay : jsstring) (u : codeunit) (i : nat) :
  In u hay -> exists j, indexOf_from hay [u] i = Some j.
Proof.
  revert i. induction hay as [|h hay IH]; intros i Hin; [destruct Hin|].
  simpl. destruct (u =? h)%N eqn:E; simpl.
  - eexists. reflexivity.
  - destruct Hin as [->|Hin]; [rewrite N.eqb_refl in E; discriminate|].
    apply IH. assumption.
Qed.

Lemma indexOf_outside (u : codeunit) (rest : jsstring) :
  inAlphabet u = false -> indexOf ALPHABET (u :: rest) = None.
Proof.
  intros H. destruct (indexOf ALPHABET (u :: rest)) as [j|] eqn:E; [|reflexivity].
  apply indexOf_from_head in E. apply inAlphabet_In in E. congruence.
Qed.

Lemma indexOf_inside (u : codeunit) :
  inAlphabet u = true -> indexOf ALPHABET [u] = Some (Z.to_nat (digitOf u)).
Proof.
  intros H. apply inAlphabet_In in H.
  destruct (indexOf_from_single ALPHABET u 0 H) as [j Hj].
  unfold digitOf, indexOf. rewrite Hj, Nat2Z.id. reflexivity.
Qed.

Lemma digitOf_range (u : codeunit) : isDigit 58 (digitOf u).
Proof.
  destruct (inAlphabet u) eqn:H.
  - assert (F : forallb (fun x => (0 <=? digitOf x) && (digitOf x <? 58)) ALPHABET = true)
      by (vm_compute; reflexivity).
    rewrite forallb_forall in F. apply inAlphabet_In in H.
    specialize (F u H). apply andb_true_iff in F. unfold isDigit. lia.
  - unfold digitOf. rewrite indexOf_outside by assumption. unfold isDigit. lia.
Qed.

Lemma alphaChar_digitOf (u : codeunit) :
  inAlphabet u = true -> alphaChar (digitOf u) = u.
Proof.
  intros H. apply inAlphabet_In in H.
  assert (F : forallb (fun x => alphaChar (digitOf x) =? x)%N ALPHABET = true)
    by (vm_compute; reflexivity).
  rewrite forallb_forall in F. apply N.eqb_eq. apply F. assumption.
Qed.

Lemma digit_cases (d : Z) :
  isDigit 58 d -> In d (map Z.of_nat (seq 0 58)).
Proof.
  unfold isDigit. intros Hd. apply in_map_iff. exists (Z.to_nat d).
  split; [lia|]. apply in_seq. lia.
Qed.

Lemma charAt_alphaChar (d : Z) :
  isDigit 58 d -> charAt ALPHABET d = Some (alphaChar d).
Proof.
  intros Hd. apply digit_cases in Hd.
  assert (F : forallb (fun x => match charAt ALPHABET x with
                                | Some u => (u =? alphaChar x)%N
                                | None => false
                                end) (map Z.of_nat (seq 0 58)) = true)
    by (vm_compute; reflexivity).
  rewrite forallb_forall in F. specialize (F d Hd).
  destruct (charAt ALPHABET d) as [u|]; [|discriminate].
  apply N.eqb_eq in F. congruence.
Qed.

Lemma alphaChar_inAlphabet (d : Z) :
  isDigit 58 d -> inAlphabet (alphaChar d) = true.
Proof.
  intros Hd. apply digit_cases in Hd.
  assert (F : forallb (fun x => inAlphabet (alphaChar x)) (map Z.of_nat (seq 0 58)) = true)
    by (vm_compute; reflexivity).
  rewrite forallb_forall in F. apply F. assumption.
Qed.

Lemma digitOf_alphaChar (d : Z) :
  isDigit 58 d -> digitOf (alphaChar d) = d.
Proof.
  intros Hd. apply digit_cases in Hd.
  assert (F : forallb (fun x => digitOf (alphaChar x) =? x) (map Z.of_nat (seq 0 58)) = true)
    by (vm_compute; reflexivity).
  rewrite forallb_forall in F. apply Z.eqb_eq. apply F. assumption.
Qed.

Lemma map_digitOf_alphaChar (ds : list Z) :
  Forall (isDigit 58) ds -> map digitOf (map alphaChar ds) = ds.
Proof.
  induction 1 as [|d ds Hd _ IH]; simpl; [reflexivity|].
  rewrite digitOf_alphaChar, IH by assumption. reflexivity.
Qed.

Lemma map_alphaChar_digitOf (s : jsstring) :
  forallb inAlphabet s = true -> map alphaChar (map digitOf s) = s.
Proof.
  induction s as [|u s IH]; simpl; [reflexivity|].
  intros H. apply andb_true_iff in H. destruct H as [Hu Hs].
  rewrite alphaChar_digitOf, IH by assumption. reflexivity.
Qed.

Lemma Forall_digitOf (s : jsstring) : Forall (isDigit 58) (map digitOf s).
Proof.
  apply Forall_forall. intros d Hd. apply in_map_iff in Hd.
  destruct Hd as [u [<- _]]. apply digitOf_range.
Qed.

Lemma forallb_alphaChar (ds : list Z) :
  Forall (isDigit 58) ds -> forallb inAlphabet (map alphaChar ds) = true.
Proof.
  induction 1 as [|d ds Hd _ IH]; simpl; [reflexivity|].
  rewrite alphaChar_inAlphabet, IH by assumption. reflexivity.
Qed.

(** ** Blocks *)

Lemma join_chars_alphaChar (ds : list Z) :
  Forall (isDigit 58) ds ->
  join_chars (map (charAt ALPHABET) ds) = map alphaChar ds.
Proof.
  induction 1 as [|d ds Hd _ IH]; [reflexivity|].
  unfold join_chars in *. cbn [map flat_map].
  rewrite IH, charAt_alphaChar by assumption. reflexivity.
Qed.

Lemma encodeBlock_loop_digits (k : nat) (num : Z) (chars : list (option codeunit)) :
  0 <= num ->
  encodeBlock_loop k num chars
  = chars ++ rev (map (charAt ALPHABET) (digits 58 k num)).
Proof.
  revert num chars. induction k as [|k IH]; intros num chars Hnum.
  - simpl. rewrite app_nil_r. reflexivity.
  - cbn [encodeBlock_loop digits]. unfold BASE.
    rewrite Z.quot_div_nonneg, Z.rem_mod_nonneg by lia.
    rewrite IH by (apply Z.div_pos; lia).
    rewrite map_app, rev_app_distr, <- app_assoc. reflexivity.
Qed.

(** A block is written as the [encodedSize] low base-58 digits of its
    big-endian value. *)
Lemma encodeBlock_digits (data : list byte) (encodedSize : nat) :
  encodeBlock data encodedSize
  = map alphaChar (digits 58 encodedSize (bytesToBigInt data)).
Proof.
  unfold encodeBlock.
  rewrite encodeBlock_loop_digits by apply bytesToBigInt_range.
  cbn [app]. rewrite rev_involutive.
  apply join_chars_alphaChar. apply digits_range. lia.
Qed.

Lemma encodeBlock_length (data : list byte) (encodedSize : nat) :
  length (encodeBlock data encodedSize) = encodedSize.
Proof. rewrite encodeBlock_digits, length_map. apply digits_length. Qed.

Lemma encodeBlock_inAlphabet (data : list byte) (encodedSize : nat) :
  forallb inAlphabet (encodeBlock data encodedSize) = true.
Proof.
  rewrite encodeBlock_digits. apply forallb_alphaChar. apply digits_range. lia.
Qed.

Lemma code_points_plain (s : jsstring) :
  forallb inAlphabet s = true -> code_points s = map (fun u => [u]) s.
Proof.
  induction s as [|u s IH]; [reflexivity|].
  intros H. cbn [forallb] in H. apply andb_true_iff in H. destruct H as [Hu Hs].
  specialize (IH Hs). cbn [code_points map].
  destruct s as [|v t]; [reflexivity|].
  rewrite (alphabet_not_surrogate u Hu). cbn [andb]. rewrite IH. reflexivity.
Qed.

Lemma decodeBlock_loop_plain (s : jsstring) (acc : Z) :
  forallb inAlphabet s = true ->
  decodeBlock_loop (map (fun u => [u]) s) acc
  = Ok (fold_left (fun a d => a * 58 + d) (map digitOf s) acc).
Proof.
  revert acc. induction s as [|u s IH]; intros acc H; [reflexivity|].
  cbn [forallb] in H. apply andb_true_iff in H. destruct H as [Hu Hs].
  cbn [map decodeBlock_loop fold_left].
  rewrite (indexOf_inside u Hu), IH by assumption.
  unfold BASE. rewrite Z2Nat.id by apply digitOf_range. reflexivity.
Qed.

(** On a group written in the alphabet the digit loop computes the base-58
    value of the group. *)
Lemma decodeBlock_loop_ok (s : jsstring) :
  forallb inAlphabet s = true ->
  decodeBlock_loop (code_points s) 0 = Ok (horner 58 (map digitOf s)).
Proof.
  intros H. rewrite code_points_plain by assumption.
  apply decodeBlock_loop_plain. assumption.
Qed.

(** On any other group the digit loop throws at a code point which is not a
    character of the alphabet. *)
Lemma decodeBlock_loop_err (s : jsstring) (acc : Z) :
  forallb inAlphabet s = false ->
  exists c, decodeBlock_loop (code_points s) acc = Err (InvalidCharacter c)
            /\ In c (code_points s) /\ indexOf ALPHABET c = None.
Proof.
  revert acc. induction s as [|u s IH]; intros acc H; [discriminate|].
  cbn [forallb] in H. cbn [code_points].
  destruct s as [|v t].
  - cbn [forallb] in H. rewrite andb_true_r in H.
    exists [u]. cbn [decodeBlock_loop]. rewrite (indexOf_outside u [] H).
    repeat split. left. reflexivity.
  - destruct (is_high_surrogate u && is_low_surrogate v) eqn:Hsur.
    + assert (Hu : inAlphabet u = false).
      { destruct (inAlphabet u) eqn:Hu; [|reflexivity].
        apply alphabet_not_surrogate in Hu. rewrite Hu in Hsur. discriminate. }
      exists [u; v]. cbn [decodeBlock_loop]. rewrite (indexOf_outside u [v] Hu).
      repeat split. left. reflexivity.
    + destruct (inAlphabet u) eqn:Hu.
      * cbn [andb] in H. cbn [decodeBlock_loop].
        rewrite (indexOf_inside u Hu).
        destruct (IH (acc * BASE + Z.of_nat (Z.to_nat (digitOf u))) H)
          as [c [Hc [Hin Hidx]]].
        exists c. repeat split; [assumption| right; assumption | assumption].
      * exists [u]. cbn [decodeBlock_loop]. rewrite (indexOf_outside u [] Hu).
        repeat split. left. reflexivity.
Qed.

Lemma firstn_repeat_le (A : Type) (x : A) (n m : nat) :
  (n <= m)%nat -> firstn n (repeat x m) = repeat x n.
Proof.
  revert m. induction n as [|n IH]; intros m H; [reflexivity|].
  destruct m as [|m]; [lia|]. simpl. rewrite IH by lia. reflexivity.
Qed.

(** The last step of [decodeBlock]: the minimal bytes of [num], left-padded
    with zeros or cut on the left, are [num] written on [decodedSize] bytes. *)
Lemma decodeBlock_place (num : Z) (decodedSize : nat) :
  0 <= num ->
  let full := bigIntToBytesMinimal num in
  let start :=
    if (decodedSize <? length full)%nat then (length full - decodedSize)%nat
    else 0%nat in
  let len := Nat.min (length full) decodedSize in
  typed_set (repeat x00 decodedSize) (subarray full start (start + len))
            (decodedSize - len)
  = Ok (bigIntToFixedBytes num decodedSize).
Proof.
  intros Hnum.
  destruct (bigIntToBytesMinimal_digits num Hnum) as [m [Hfull [Hlt Hm]]].
  rewrite Hfull. cbv zeta. rewrite length_map, digits_length.
  rewrite bigIntToFixedBytes_digits.
  set (target := map byte_of_Z (digits 256 decodedSize num)).
  assert (Htarget : length target = decodedSize)
    by (unfold target; rewrite length_map; apply digits_length).
  destruct (decodedSize <? m)%nat eqn:Hcmp.
  - apply Nat.ltb_lt in Hcmp.
    replace (Nat.min m decodedSize) with decodedSize by lia.
    assert (Hsrc : subarray (map byte_of_Z (digits 256 m num)) (m - decodedSize)
                     (m - decodedSize + decodedSize) = target).
    { unfold subarray, target.
      replace (m - decodedSize + decodedSize - (m - decodedSize))%nat
        with decodedSize by lia.
      rewrite skipn_map.
      replace (digits 256 m num)
        with (digits 256 ((m - decodedSize) + decodedSize) num)
        by (f_equal; lia).
      rewrite digits_drop.
      apply firstn_all2. rewrite length_map, digits_length. lia. }
    rewrite Hsrc. unfold typed_set.
    rewrite Htarget, repeat_length, Nat.sub_diag. cbn [Nat.add].
    rewrite Nat.leb_refl. cbn [firstn app].
    rewrite skipn_all2 by (rewrite repeat_length; lia).
    apply f_equal, app_nil_r.
  - apply Nat.ltb_ge in Hcmp.
    replace (Nat.min m decodedSize) with m by lia.
    assert (Hsrc : subarray (map byte_of_Z (digits 256 m num)) 0 (0 + m)
                   = map byte_of_Z (digits 256 m num)).
    { unfold subarray. cbn [Nat.add skipn]. rewrite Nat.sub_0_r.
      apply firstn_all2. rewrite length_map, digits_length. lia. }
    rewrite Hsrc. unfold typed_set.
    rewrite length_map, digits_length, repeat_length.
    replace (decodedSize - m + m)%nat with decodedSize by lia.
    rewrite Nat.leb_refl.
    rewrite skipn_all2 by (rewrite repeat_length; lia).
    rewrite app_nil_r, firstn_repeat_le by lia.
    unfold target.
    replace (digits 256 decodedSize num)
      with (digits 256 ((decodedSize - m) + m) num) by (f_equal; lia).
    rewrite (digits_pad 256 ltac:(lia) m (decodedSize - m) num) by lia.
    rewrite map_app, map_repeat. reflexivity.
Qed.

Lemma decodeBlock_loop_nonneg (cs : list jsstring) (acc num : Z) :
  0 <= acc -> decodeBlock_loop cs acc = Ok num -> 0 <= num.
Proof.
  revert acc. induction cs as [|c cs IH]; intros acc Hacc H.
  - simpl in H. injection H as <-. assumption.
  - cbn [decodeBlock_loop] in H. destruct (indexOf ALPHABET c) as [d|]; [|discriminate].
    apply IH in H; [assumption|]. unfold BASE. lia.
Qed.

(** [decodeBlock] in terms of [bigIntToFixedBytes]: the block is the value
    of the group modulo [256 ^ decodedSize], on exactly [decodedSize] bytes. *)
Lemma decodeBlock_fixed (data : jsstring) (decodedSize : nat) (num : Z) :
  decodeBlock_loop (code_points data) 0 = Ok num ->
  decodeBlock data decodedSize = Ok (bigIntToFixedBytes num decodedSize).
Proof.
  intros H. unfold decodeBlock. rewrite H. cbn [bind].
  apply decodeBlock_place.
  apply (decodeBlock_loop_nonneg (code_points data) 0 num); [lia|assumption].
Qed.

Lemma decodeBlock_ok (data : jsstring) (decodedSize : nat) :
  forallb inAlphabet data = true ->
  decodeBlock data decodedSize
  = Ok (bigIntToFixedBytes (horner 58 (map digitOf data)) decodedSize).
Proof.
  intros H. apply decodeBlock_fixed. apply decodeBlock_loop_ok. assumption.
Qed.

Lemma decodeBlock_err (data : jsstring) (decodedSize : nat) :
  forallb inAlphabet data = false ->
  exists c, decodeBlock data decodedSize = Err (InvalidCharacter c)
            /\ In c (code_points data) /\ indexOf ALPHABET c = None.
Proof.
  intros H. destruct (decodeBlock_loop_err data 0 H) as [c [Hc Hrest]].
  exists c. unfold decodeBlock. rewrite Hc. split; [reflexivity|assumption].
Qed.

(** ** Splitting a sequence into groups of a fixed width *)

Section Chunks.

Variable A : Type.
Variable w : nat.
Hypothesis w_pos : (0 < w)%nat.

Lemma subarray_shift (g rest : list A) (i : nat) :
  length g = w ->
  subarray (g ++ rest) (S i * w) (S i * w + w) = subarray rest (i * w) (i * w + w).
Proof.
  intros Hg. unfold subarray.
  replace (S i * w + w - S i * w)%nat with w by lia.
  replace (i * w + w - i * w)%nat with w by lia.
  rewrite skipn_app, Hg.
  rewrite skipn_all2 by (rewrite Hg; lia). cbn [app].
  replace (S i * w - w)%nat with (i * w)%nat by lia. reflexivity.
Qed.

Lemma length_app_group (g rest : list A) :
  length g = w -> (length (g ++ rest) / w = S (length rest / w))%nat.
Proof.
  intros Hg. rewrite length_app, Hg.
  replace (w + length rest)%nat with (1 * w + length rest)%nat by lia.
  rewrite Nat.div_add_l by lia. reflexivity.
Qed.

Lemma groups_cons (g rest : list A) :
  length g = w -> groups w (g ++ rest) = g :: groups w rest.
Proof.
  intros Hg. unfold groups. rewrite length_app_group by assumption.
  cbn [seq map]. f_equal.
  - unfold subarray. cbn [Nat.mul Nat.add skipn]. rewrite Nat.sub_0_r.
    rewrite firstn_app, Hg, Nat.sub_diag. cbn [firstn].
    rewrite app_nil_r. apply firstn_all2. lia.
  - rewrite <- seq_shift, map_map. apply map_ext. intros i.
    apply subarray_shift. assumption.
Qed.

Lemma trailing_cons (g rest : list A) :
  length g = w -> trailing w (g ++ rest) = trailing w rest.
Proof.
  intros Hg. unfold trailing, subarray_from.
  rewrite length_app_group by assumption.
  rewrite skipn_app, Hg.
  rewrite skipn_all2 by (rewrite Hg; lia). cbn [app].
  f_equal. lia.
Qed.

Lemma groups_short (t : list A) : (length t < w)%nat -> groups w t = [].
Proof. intros H. unfold groups. rewrite Nat.div_small by assumption. reflexivity. Qed.

Lemma trailing_short (t : list A) : (length t < w)%nat -> trailing w t = t.
Proof.
  intros H. unfold trailing, subarray_from.
  rewrite Nat.div_small by assumption. reflexivity.
Qed.

(** A concatenation of full groups followed by a short rest is split back
    into these groups and this rest. *)
Lemma groups_concat (G : list (list A)) (T : list A) :
  Forall (fun g => length g = w) G -> (length T < w)%nat ->
  groups w (concat G ++ T) = G.
Proof.
  intros HG HT. induction HG as [|g G Hg _ IH]; cbn [concat app].
  - apply groups_short. assumption.
  - rewrite <- app_assoc, groups_cons, IH by assumption. reflexivity.
Qed.

Lemma trailing_concat (G : list (list A)) (T : list A) :
  Forall (fun g => length g = w) G -> (length T < w)%nat ->
  trailing w (concat G ++ T) = T.
Proof.
  intros HG HT. induction HG as [|g G Hg _ IH]; cbn [concat app].
  - apply trailing_short. assumption.
  - rewrite <- app_assoc, trailing_cons, IH by assumption. reflexivity.
Qed.

Lemma trailing_length (s : list A) : length (trailing w s) = (length s mod w)%nat.
Proof.
  unfold trailing, subarray_from. rewrite length_skipn.
  rewrite Nat.Div0.mod_eq. f_equal. apply Nat.mul_comm.
Qed.

(** Every sequence is a concatenation of full groups followed by a short
    rest. *)
Lemma chunks_exist (s : list A) :
  exists G T, s = concat G ++ T
              /\ Forall (fun g => length g = w) G /\ (length T < w)%nat.
Proof.
  remember (length s) as n eqn:Hn. revert s Hn.
  induction n as [n IH] using lt_wf_ind. intros s Hn.
  destruct (Nat.lt_ge_cases (length s) w) as [Hlt|Hge].
  - exists [], s. repeat split; [constructor|assumption].
  - destruct (IH (length (skipn w s))) with (s := skipn w s) as [G [T [Hs [HG HT]]]].
    { rewrite length_skipn. lia. }
    { reflexivity. }
    exists (firstn w s :: G), T. repeat split.
    + cbn [concat]. rewrite <- app_assoc, <- Hs. symmetry. apply firstn_skipn.
    + constructor; [|assumption]. rewrite length_firstn. lia.
    + assumption.
Qed.

Lemma groups_split (s : list A) : concat (groups w s) ++ trailing w s = s.
Proof.
  destruct (chunks_exist s) as [G [T [Hs [HG HT]]]].
  rewrite Hs at 1 2. rewrite groups_concat, trailing_concat by assumption.
  symmetry. assumption.
Qed.

Lemma groups_width (s : list A) : Forall (fun g => length g = w) (groups w s).
Proof.
  destruct (chunks_exist s) as [G [T [Hs [HG HT]]]].
  rewrite Hs, groups_concat by assumption. assumption.
Qed.

Lemma trailing_short_length (s : list A) : (length (trailing w s) < w)%nat.
Proof. rewrite trailing_length. apply Nat.mod_upper_bound. lia. Qed.

Lemma groups_count (s : list A) : length (groups w s) = (length s / w)%nat.
Proof. unfold groups. rewrite length_map, length_seq. reflexivity. Qed.

End Chunks.

(** ** The two loops over blocks *)

Lemma for_each_push (X : Type) (f : nat -> X) (idx : list nat) (parts : list X) :
  for_each (fun i parts => Ok (parts ++ [f i])) idx parts = Ok (parts ++ map f idx).
Proof.
  revert parts. induction idx as [|i idx IH]; intros parts; cbn [for_each map bind].
  - rewrite app_nil_r. reflexivity.
  - rewrite IH, <- app_assoc. reflexivity.
Qed.

Lemma for_each_append (X : Type) (f : nat -> result (list X)) (idx : list nat)
      (bytes : list X) :
  for_each (fun i bytes => let* block := f i in Ok (bytes ++ block)) idx bytes
  = let* blocks := traverse f idx in Ok (bytes ++ concat blocks).
Proof.
  revert bytes. induction idx as [|i idx IH]; intros bytes; cbn [for_each traverse bind].
  - cbn [concat]. rewrite app_nil_r. reflexivity.
  - destruct (f i) as [block|e]; cbn [bind]; [|reflexivity].
    rewrite IH. destruct (traverse f idx) as [blocks|e]; cbn [bind concat]; [|reflexivity].
    rewrite app_assoc. reflexivity.
Qed.

Lemma traverse_map (X Y W : Type) (f : Y -> result W) (g : X -> Y) (l : list X) :
  traverse f (map g l) = traverse (fun x => f (g x)) l.
Proof.
  induction l as [|x l IH]; cbn [map traverse]; [reflexivity|].
  rewrite IH. reflexivity.
Qed.

Lemma getEncodedBlockSize_ok (n : nat) :
  (1 <= n <= 8)%nat -> getEncodedBlockSize n = Ok (encodedWidth n).
Proof.
  intros H. do 9 (destruct n as [|n]; [try lia; reflexivity|]). lia.
Qed.

(** [cnBase58Encode] group by group. *)
Lemma cnBase58Encode_groups (data : list byte) :
  cnBase58Encode data
  = Ok (concat (map (fun g => encodeBlock g 11) (groups 8 data))
        ++ encodeBlock (trailing 8 data) (encodedWidth (length (trailing 8 data)))).
Proof.
  unfold cnBase58Encode, for_range.
  rewrite (for_each_push _
             (fun i => encodeBlock (subarray data (i * FULL_BLOCK_SIZE)
                                      (i * FULL_BLOCK_SIZE + FULL_BLOCK_SIZE))
                         FULL_ENCODED_BLOCK_SIZE)).
  cbn [bind app].
  change FULL_ENCODED_BLOCK_SIZE with 11%nat. change FULL_BLOCK_SIZE with 8%nat.
  change (subarray_from data (length data / 8 * 8)) with (trailing 8 data).
  rewrite <- (trailing_length _ 8 data).
  unfold groups. rewrite map_map.
  pose proof (trailing_short_length _ 8 ltac:(lia) data) as Hshort.
  destruct (0 <? length (trailing 8 data))%nat eqn:Hlast.
  - apply Nat.ltb_lt in Hlast.
    rewrite getEncodedBlockSize_ok by lia. cbn [bind].
    rewrite concat_app. cbn [concat]. rewrite app_nil_r. reflexivity.
  - apply Nat.ltb_ge in Hlast. cbn [bind].
    destruct (trailing 8 data); [|simpl in Hlast; lia].
    change (encodeBlock [] (encodedWidth (length []))) with (@nil codeunit).
    rewrite app_nil_r. reflexivity.
Qed.

(** [cnBase58Decode] group by group. *)
Lemma cnBase58Decode_groups (encoded : jsstring) :
  cnBase58Decode encoded
  = let* blocks := traverse (fun g => decodeBlock g 8) (groups 11 encoded) in
    let* last := decodeLast (trailing 11 encoded) in
    Ok (concat blocks ++ last).
Proof.
  unfold cnBase58Decode, for_range.
  rewrite (for_each_append _
             (fun i => decodeBlock (subarray encoded (i * FULL_ENCODED_BLOCK_SIZE)
                                      (i * FULL_ENCODED_BLOCK_SIZE + FULL_ENCODED_BLOCK_SIZE))
                         FULL_BLOCK_SIZE)).
  change FULL_ENCODED_BLOCK_SIZE with 11%nat. change FULL_BLOCK_SIZE with 8%nat.
  change (subarray_from encoded (length encoded / 11 * 11))
    with (trailing 11 encoded).
  rewrite <- (trailing_length _ 11 encoded).
  unfold groups. rewrite traverse_map.
  destruct (traverse _ (seq 0 (length encoded / 11))) as [blocks|e]; cbn [bind app];
    [|reflexivity].
  unfold decodeLast.
  destruct (0 <? length (trailing 11 encoded))%nat; cbn [bind].
  - destruct (getDecodedBlockSize (length (trailing 11 encoded))) as [d|e]; cbn [bind];
      [|reflexivity].
    destruct (decodeBlock (trailing 11 encoded) d); reflexivity.
  - rewrite app_nil_r. reflexivity.
Qed.

(** ** Round trips of a single block *)

Lemma decodeBlock_encodeBlock (block : list byte) (encodedSize : nat) :
  256 ^ Z.of_nat (length block) <= 58 ^ Z.of_nat encodedSize ->
  decodeBlock (encodeBlock block encodedSize) (length block) = Ok block.
Proof.
  intros Hwide.
  rewrite decodeBlock_ok by apply encodeBlock_inAlphabet.
  rewrite encodeBlock_digits.
  rewrite map_digitOf_alphaChar by (apply digits_range; lia).
  rewrite horner_digits by lia.
  pose proof (bytesToBigInt_range block) as Hv.
  rewrite Z.mod_small by lia.
  rewrite bigIntToFixedBytes_bytesToBigInt. reflexivity.
Qed.

Lemma encodeBlock_decodeBlock (g : jsstring) (decodedSize : nat) (block : list byte) :
  decodeBlock g decodedSize = Ok block ->
  groupFits g decodedSize = true ->
  encodeBlock block (length g) = g.
Proof.
  intros Hdec Hfit. unfold groupFits in Hfit.
  destruct (forallb inAlphabet g) eqn:Halpha.
  - rewrite decodeBlock_ok in Hdec by assumption. injection Hdec as <-.
    rewrite decodeBlock_loop_ok in Hfit by assumption. apply Z.ltb_lt in Hfit.
    rewrite encodeBlock_digits, bytesToBigInt_bigIntToFixedBytes.
    pose proof (horner_range 58 ltac:(lia) _ (Forall_digitOf g)) as Hv.
    rewrite Z.mod_small by lia.
    rewrite <- (length_map digitOf g).
    rewrite digits_horner by (try apply Forall_digitOf; lia).
    apply map_alphaChar_digitOf. assumption.
  - destruct (decodeBlock_err g decodedSize Halpha) as [c [Hc _]]. congruence.
Qed.

Lemma decodeBlock_length (g : jsstring) (decodedSize : nat) (block : list byte) :
  decodeBlock g decodedSize = Ok block -> length block = decodedSize.
Proof.
  intros Hdec. destruct (forallb inAlphabet g) eqn:Halpha.
  - rewrite decodeBlock_ok in Hdec by assumption. injection Hdec as <-.
    apply bigIntToFixedBytes_length.
  - destruct (decodeBlock_err g decodedSize Halpha) as [c [Hc _]]. congruence.
Qed.

(** ** The size tables *)

Lemma encodedWidth_wide (n : nat) :
  (n <= 8)%nat -> 256 ^ Z.of_nat n <= 58 ^ Z.of_nat (encodedWidth n).
Proof.
  intros H. do 9 (destruct n as [|n]; [vm_compute; discriminate|]). lia.
Qed.

Lemma encodedWidth_short (n : nat) : (n < 8)%nat -> (encodedWidth n < 11)%nat.
Proof.
  intros H. do 8 (destruct n as [|n]; [vm_compute; lia|]). lia.
Qed.

Lemma getDecodedBlockSize_encodedWidth (n : nat) :
  (1 <= n <= 8)%nat -> getDecodedBlockSize (encodedWidth n) = Ok n.
Proof.
  intros H. do 9 (destruct n as [|n]; [try lia; reflexivity|]). lia.
Qed.

Lemma encodedWidth_pos (n : nat) : (1 <= n <= 8)%nat -> (0 < encodedWidth n)%nat.
Proof.
  intros H. do 9 (destruct n as [|n]; [try lia; vm_compute; lia|]). lia.
Qed.

Lemma getDecodedBlockSize_inv (m d : nat) :
  getDecodedBlockSize m = Ok d ->
  (1 <= d <= 8)%nat /\ encodedWidth d = m /\ ((m < 11)%nat -> (d < 8)%nat).
Proof.
  intros H. do 12 (destruct m as [|m]; [try discriminate H; injection H as <-;
    vm_compute; repeat split; lia|]). discriminate H.
Qed.

Lemma traverse_roundtrip (X Y : Type) (f : Y -> result X) (h : X -> Y) (l : list X) :
  Forall (fun x => f (h x) = Ok x) l -> traverse f (map h l) = Ok l.
Proof.
  induction 1 as [|x l Hx _ IH]; cbn [map traverse]; [reflexivity|].
  rewrite Hx, IH. reflexivity.
Qed.

Lemma decodeLast_encodeBlock (t : list byte) :
  (length t < 8)%nat ->
  decodeLast (encodeBlock t (encodedWidth (length t))) = Ok t.
Proof.
  intros Ht. unfold decodeLast. rewrite encodeBlock_length.
  destruct (0 <? encodedWidth (length t))%nat eqn:Hpos.
  - destruct t as [|x t]; [discriminate Hpos|].
    rewrite getDecodedBlockSize_encodedWidth by (simpl length in *; lia).
    cbn [bind]. apply decodeBlock_encodeBlock, encodedWidth_wide. lia.
  - apply Nat.ltb_ge in Hpos. destruct t as [|x t]; [reflexivity|].
    pose proof (encodedWidth_pos (length (x :: t))) as H.
    simpl length in *. lia.
Qed.

(** ** Properties of the codec *)

(** Reading back what [cnBase58Encode] writes for full blocks [G] followed
    by a short block [T]. *)
Lemma decode_written_groups (G : list (list byte)) (T : list byte) :
  Forall (fun blk => length blk = 8%nat) G -> (length T < 8)%nat ->
  cnBase58Decode (concat (map (fun g => encodeBlock g 11) G)
                  ++ encodeBlock T (encodedWidth (length T)))
  = Ok (concat G ++ T).
Proof.
  intros Hw Hshort. rewrite cnBase58Decode_groups.
  assert (HG : Forall (fun g : jsstring => length g = 11%nat)
                 (map (fun g => encodeBlock g 11) G)).
  { apply Forall_forall. intros g Hg. apply in_map_iff in Hg.
    destruct Hg as [blk [<- _]]. apply encodeBlock_length. }
  assert (HT : (length (encodeBlock T (encodedWidth (length T))) < 11)%nat).
  { rewrite encodeBlock_length. apply encodedWidth_short. assumption. }
  rewrite (groups_concat _ 11 ltac:(lia) _ _ HG HT).
  rewrite (trailing_concat _ 11 ltac:(lia) _ _ HG HT).
  rewrite traverse_roundtrip.
  - cbn [bind]. rewrite decodeLast_encodeBlock by assumption. reflexivity.
  - apply Forall_forall. intros blk Hblk.
    rewrite Forall_forall in Hw. specialize (Hw blk Hblk).
    rewrite <- Hw at 2. apply decodeBlock_encodeBlock.
    rewrite Hw. vm_compute. discriminate.
Qed.

(** C1. Decoding the encoding of any byte sequence succeeds and gives the
    byte sequence back. *)
Theorem cnBase58Decode_cnBase58Encode (b : list byte) :
  exists s, cnBase58Encode b = Ok s /\ cnBase58Decode s = Ok b.
Proof.
  rewrite cnBase58Encode_groups. eexists. split; [reflexivity|].
  rewrite decode_written_groups.
  - rewrite (groups_split _ 8 ltac:(lia) b). reflexivity.
  - apply groups_width. lia.
  - apply trailing_short_length. lia.
Qed.

Lemma traverse_Forall2 (X Y : Type) (f : X -> result Y) (l : list X) (l' : list Y) :
  traverse f l = Ok l' -> Forall2 (fun x y => f x = Ok y) l l'.
Proof.
  revert l'. induction l as [|x l IH]; intros l' H; cbn [traverse] in H.
  - injection H as <-. constructor.
  - destruct (f x) as [y|e] eqn:Hx; cbn [bind] in H; [|discriminate].
    destruct (traverse f l) as [ys|e]; cbn [bind] in H; [|discriminate].
    injection H as <-. constructor; [assumption|]. apply IH. reflexivity.
Qed.

Lemma decodeLast_inv (t : jsstring) (last : list byte) :
  decodeLast t = Ok last ->
  (length t < 11)%nat ->
  (length last < 8)%nat
  /\ encodedWidth (length last) = length t
  /\ decodedWidth (length t) = length last
  /\ (t = [] -> last = [])
  /\ decodeBlock t (length last) = Ok last.
Proof.
  unfold decodeLast. intros H Hshort.
  destruct (0 <? length t)%nat eqn:Hpos.
  - destruct (getDecodedBlockSize (length t)) as [d|e] eqn:Hd; cbn [bind] in H;
      [|discriminate].
    pose proof (decodeBlock_length t d last H) as Hlen.
    destruct (getDecodedBlockSize_inv (length t) d Hd) as [Hr [Hw Hlt]].
    unfold decodedWidth. rewrite Hd, Hlen.
    repeat split; try assumption; try lia.
    intros ->. discriminate Hpos.
  - apply Nat.ltb_ge in Hpos. injection H as <-.
    destruct t; [|simpl in Hpos; lia].
    repeat split; simpl; lia.
Qed.

(** Whatever [cnBase58Encode] writes has no overflowing group. *)
Lemma noOverflow_cnBase58Encode (b : list byte) (s : jsstring) :
  cnBase58Encode b = Ok s -> noOverflow s = true.
Proof.
  rewrite cnBase58Encode_groups. intros H. injection H as <-.
  pose proof (trailing_short_length _ 8 ltac:(lia) b) as Hshort.
  assert (HG : Forall (fun g : jsstring => length g = 11%nat)
                 (map (fun g => encodeBlock g 11) (groups 8 b))).
  { apply Forall_forall. intros g Hg. apply in_map_iff in Hg.
    destruct Hg as [blk [<- _]]. apply encodeBlock_length. }
  assert (HT : (length (encodeBlock (trailing 8 b)
                          (encodedWidth (length (trailing 8 b)))) < 11)%nat).
  { rewrite encodeBlock_length. apply encodedWidth_short. assumption. }
  assert (Hfit : forall blk k, (length blk <= 8)%nat ->
                   256 ^ Z.of_nat (length blk) <= 58 ^ Z.of_nat k ->
                   groupFits (encodeBlock blk k) (length blk) = true).
  { intros blk k Hlen Hwide. unfold groupFits.
    rewrite decodeBlock_loop_ok by apply encodeBlock_inAlphabet.
    rewrite encodeBlock_digits.
    rewrite map_digitOf_alphaChar by (apply digits_range; lia).
    rewrite horner_digits by lia.
    pose proof (bytesToBigInt_range blk) as Hv.
    rewrite Z.mod_small by lia. apply Z.ltb_lt. lia. }
  unfold noOverflow.
  change FULL_ENCODED_BLOCK_SIZE with 11%nat. change FULL_BLOCK_SIZE with 8%nat.
  rewrite <- (trailing_length _ 11).
  rewrite (groups_concat _ 11 ltac:(lia) _ _ HG HT).
  rewrite (trailing_concat _ 11 ltac:(lia) _ _ HG HT).
  apply andb_true_iff. split.
  - apply forallb_forall. intros g Hg. apply in_map_iff in Hg.
    destruct Hg as [blk [<- Hblk]].
    pose proof (groups_width _ 8 ltac:(lia) b) as Hw.
    rewrite Forall_forall in Hw. specialize (Hw blk Hblk).
    rewrite <- Hw at 2. apply Hfit; [lia|]. rewrite Hw. vm_compute. discriminate.
  - rewrite encodeBlock_length.
    destruct (trailing 8 b) as [|x t] eqn:Ht; [reflexivity|].
    unfold decodedWidth.
    rewrite getDecodedBlockSize_encodedWidth by (simpl length in *; lia).
    apply Hfit; [lia|]. apply encodedWidth_wide. lia.
Qed.

(** C2, as the code has it. For a string that [cnBase58Decode] accepts,
    encoding the decoded bytes gives the string back exactly when no group
    of the string overflows its block, that is when the base-58 value of
    every full group is below [256 ^ 8] and the value of the trailing group
    is below [256 ^ k] for its decoded size [k]; [decodeBlock] keeps only
    the low bytes of an overflowing group. *)
Theorem cnBase58Encode_cnBase58Decode (s : jsstring) (d : list byte) :
  cnBase58Decode s = Ok d ->
  (cnBase58Encode d = Ok s <-> noOverflow s = true).
Proof.
  intros Hdec. split; [apply noOverflow_cnBase58Encode|].
  intros Hfit. rewrite cnBase58Decode_groups in Hdec.
  destruct (traverse (fun g => decodeBlock g 8) (groups 11 s)) as [blocks|e] eqn:Hblocks;
    cbn [bind] in Hdec; [|discriminate].
  destruct (decodeLast (trailing 11 s)) as [last|e] eqn:Hlast;
    cbn [bind] in Hdec; [|discriminate].
  injection Hdec as <-.
  unfold noOverflow in Hfit.
  change FULL_ENCODED_BLOCK_SIZE with 11%nat in Hfit.
  change FULL_BLOCK_SIZE with 8%nat in Hfit.
  rewrite <- (trailing_length _ 11) in Hfit.
  apply andb_true_iff in Hfit. destruct Hfit as [HfitG HfitT].
  rewrite forallb_forall in HfitG.
  pose proof (trailing_short_length _ 11 ltac:(lia) s) as Hshort.
  destruct (decodeLast_inv _ _ Hlast Hshort) as [Hl8 [Hew [Hdw [_ HdecT]]]].
  apply traverse_Forall2 in Hblocks.
  assert (Hwidth : Forall (fun blk : list byte => length blk = 8%nat) blocks).
  { clear -Hblocks. induction Hblocks as [|g blk G B Hg _ IH]; constructor;
      [eapply decodeBlock_length; eassumption | assumption]. }
  rewrite cnBase58Encode_groups.
  rewrite (groups_concat _ 8 ltac:(lia) _ _ Hwidth Hl8).
  rewrite (trailing_concat _ 8 ltac:(lia) _ _ Hwidth Hl8).
  assert (HG : map (fun g => encodeBlock g 11) blocks = groups 11 s).
  { pose proof (groups_width _ 11 ltac:(lia) s) as Hw.
    rewrite Forall_forall in Hw.
    revert HfitG Hw. clear -Hblocks.
    induction Hblocks as [|g blk G B Hg _ IH]; intros HfitG Hw; [reflexivity|].
    cbn [map]. rewrite IH.
    - f_equal. rewrite <- (Hw g (or_introl eq_refl)).
      apply encodeBlock_decodeBlock with (decodedSize := 8%nat); [assumption|].
      apply HfitG. left. reflexivity.
    - intros x Hx. apply HfitG. right. assumption.
    - intros x Hx. apply Hw. right. assumption. }
  rewrite HG, Hew.
  rewrite (encodeBlock_decodeBlock (trailing 11 s) (length last) last HdecT)
    by (rewrite <- Hdw; assumption).
  rewrite (groups_split _ 11 ltac:(lia) s). reflexivity.
Qed.

(** C2 as stated fails: ["zz"] is accepted, its value 3363 is cut to the
    byte 0x23, and that byte is written back as ["1c"]. *)
Lemma overflowing_group_not_restored :
  cnBase58Decode (js "zz") = Ok [x23]
  /\ cnBase58Encode [x23] = Ok (js "1c")
  /\ cnBase58Encode [x23] <> Ok (js "zz").
Proof.
  repeat split; try (vm_compute; reflexivity).
  vm_compute. discriminate.
Qed.

Lemma cnBase58Encode_cnBase58Decode_witness :
  cnBase58Decode (js "1c") = Ok [x23]
  /\ (cnBase58Encode [x23] = Ok (js "1c") <-> noOverflow (js "1c") = true).
Proof.
  split; [vm_compute; reflexivity|].
  apply (cnBase58Encode_cnBase58Decode (js "1c") [x23]).
  vm_compute. reflexivity.
Defined.

(** C3. [cnBase58Encode] returns a string for every byte sequence; when
    there is a trailing block its length is between 1 and 7, so the lookup
    in [getEncodedBlockSize] does not reach its throwing branch. *)
Theorem cnBase58Encode_total (data : list byte) :
  (exists s, cnBase58Encode data = Ok s)
  /\ let lastBlockSize := (length data mod FULL_BLOCK_SIZE)%nat in
     ((0 < lastBlockSize)%nat ->
      (1 <= lastBlockSize <= 7)%nat
      /\ exists encodedSize, getEncodedBlockSize lastBlockSize = Ok encodedSize).
Proof.
  split.
  - rewrite cnBase58Encode_groups. eexists. reflexivity.
  - cbv zeta. change FULL_BLOCK_SIZE with 8%nat. intros Hpos.
    pose proof (Nat.mod_upper_bound (length data) 8 ltac:(lia)) as Hlt.
    split; [lia|].
    exists (encodedWidth (length data mod 8)).
    apply getEncodedBlockSize_ok. lia.
Qed.

Lemma cnBase58Encode_total_witness :
  (0 < length [x01; x02; x03] mod FULL_BLOCK_SIZE)%nat
  /\ (1 <= length [x01; x02; x03] mod FULL_BLOCK_SIZE <= 7)%nat
  /\ exists encodedSize,
       getEncodedBlockSize (length [x01; x02; x03] mod FULL_BLOCK_SIZE) = Ok encodedSize.
Proof.
  split; [vm_compute; lia|].
  apply (proj2 (cnBase58Encode_total [x01; x02; x03])).
  vm_compute. lia.
Defined.

Lemma length_concat_uniform (X : Type) (w : nat) (G : list (list X)) :
  Forall (fun g => length g = w) G -> length (concat G) = (w * length G)%nat.
Proof.
  induction 1 as [|g G Hg _ IH]; cbn [concat length]; [lia|].
  rewrite length_app, Hg, IH. lia.
Qed.

Lemma encodedWidth_spec (n : nat) :
  (n < 8)%nat -> encodedWidth n = spec_encoded_width n.
Proof.
  intros H. do 8 (destruct n as [|n]; [reflexivity|]). lia.
Qed.

(** C4. Every block is written on the width of the table: [encodeBlock]
    returns exactly the requested number of characters whatever the bytes
    (so a full block takes 11 characters even when it starts with zero
    bytes), the widths requested for 1..8 bytes are 2, 3, 5, 6, 7, 9, 10,
    11, and the length of [cnBase58Encode data] is 11 times the number of
    full blocks plus the table width of the remainder. *)
Theorem cnBase58Encode_length (data : list byte) :
  (forall encodedSize, length (encodeBlock data encodedSize) = encodedSize)
  /\ map getEncodedBlockSize [1; 2; 3; 4; 5; 6; 7; 8]%nat
     = map Ok [2; 3; 5; 6; 7; 9; 10; 11]%nat
  /\ exists s, cnBase58Encode data = Ok s
       /\ length s = (11 * (length data / 8)
                      + spec_encoded_width (length data mod 8))%nat.
Proof.
  split; [intros k; apply encodeBlock_length|].
  split; [reflexivity|].
  rewrite cnBase58Encode_groups. eexists. split; [reflexivity|].
  rewrite length_app, encodeBlock_length.
  rewrite (length_concat_uniform _ 11).
  - rewrite length_map, groups_count, trailing_length.
    rewrite encodedWidth_spec by (apply Nat.mod_upper_bound; lia).
    reflexivity.
  - apply Forall_forall. intros g Hg. apply in_map_iff in Hg.
    destruct Hg as [blk [<- _]]. apply encodeBlock_length.
Qed.

(** C10. Both directions accept the empty input and return the empty
    output. *)
Theorem cnBase58_empty :
  cnBase58Encode [] = Ok (js "") /\ cnBase58Decode (js "") = Ok [].
Proof. split; reflexivity. Qed.

(** ** Outcomes of decoding *)

Lemma forallb_concat (X : Type) (p : X -> bool) (G : list (list X)) :
  forallb p (concat G) = forallb (forallb p) G.
Proof.
  induction G as [|g G IH]; cbn [concat forallb]; [reflexivity|].
  rewrite forallb_app, IH. reflexivity.
Qed.

Lemma forallb_false_exists (X : Type) (p : X -> bool) (l : list X) :
  forallb p l = false <-> exists x, In x l /\ p x = false.
Proof.
  induction l as [|x l IH]; cbn [forallb].
  - split; [discriminate|]. intros [x [[] _]].
  - rewrite andb_false_iff, IH. split.
    + intros [H|[y [Hy Hp]]]; [exists x | exists y]; split;
        try assumption; [left; reflexivity | right; assumption].
    + intros [y [[<-|Hy] Hp]]; [left; assumption|].
      right. exists y. split; assumption.
Qed.

(** The bytes of a group written in the alphabet: its base-58 value written
    on [decodedSize] base-256 digits, the high digits being dropped when
    there are more and zeros being added in front when there are fewer. *)
Lemma traverse_decodeBlock_ok (G : list jsstring) :
  forallb (forallb inAlphabet) G = true ->
  traverse (fun g => decodeBlock g 8) G
  = Ok (map (fun g => map byte_of_Z (digits 256 8 (horner 58 (map digitOf g)))) G).
Proof.
  induction G as [|g G IH]; cbn [forallb traverse map]; [reflexivity|].
  intros H. apply andb_true_iff in H. destruct H as [Hg HG].
  rewrite decodeBlock_ok, IH, bigIntToFixedBytes_digits by assumption. reflexivity.
Qed.

Lemma traverse_decodeBlock_err (G : list jsstring) :
  forallb (forallb inAlphabet) G = false ->
  exists c, traverse (fun g => decodeBlock g 8) G = Err (InvalidCharacter c)
            /\ indexOf ALPHABET c = None.
Proof.
  induction G as [|g G IH]; cbn [forallb traverse]; [discriminate|].
  intros H. destruct (forallb inAlphabet g) eqn:Hg.
  - cbn [andb] in H. destruct (IH H) as [c [Hc Hidx]].
    exists c. rewrite decodeBlock_ok, Hc by assumption. split; [reflexivity|assumption].
  - destruct (decodeBlock_err g 8 Hg) as [c [Hc [_ Hidx]]].
    exists c. rewrite Hc. split; [reflexivity|assumption].
Qed.

Lemma decodeLast_cases (t : jsstring) :
  (length t < 11)%nat ->
  match decodeLast t with
  | Ok last =>
      forallb inAlphabet t = true /\ ~ In (length t) [1; 4; 8]%nat
      /\ last = map byte_of_Z (digits 256 (spec_decoded_width (length t))
                                 (horner 58 (map digitOf t)))
  | Err e =>
      (e = InvalidEncodedBlockSize (length t) /\ In (length t) [1; 4; 8]%nat)
      \/ (exists c, e = InvalidCharacter c /\ indexOf ALPHABET c = None
                    /\ forallb inAlphabet t = false)
  end.
Proof.
  intros Hshort. unfold decodeLast.
  destruct t as [|u t].
  { cbn. repeat split. intros [H|[H|[H|[]]]]; discriminate H. }
  remember (u :: t) as g eqn:Hg.
  assert (Hpos : (0 <? length g)%nat = true) by (subst g; reflexivity).
  rewrite Hpos. apply Nat.ltb_lt in Hpos. clear Hg u t.
  destruct (In_dec Nat.eq_dec (length g) [1; 4; 8]%nat) as [Hbad|Hgood].
  - cbn in Hbad. destruct Hbad as [E|[E|[E|[]]]]; rewrite <- E; cbn;
      left; split; tauto.
  - assert (Hsize : getDecodedBlockSize (length g)
                    = Ok (spec_decoded_width (length g))).
    { remember (length g) as m eqn:Hm. clear Hm.
      destruct m as [|m]; [lia|].
      do 10 (destruct m as [|m]; [try reflexivity; exfalso; apply Hgood; cbn; tauto|]).
      lia. }
    rewrite Hsize. cbn [bind].
    destruct (forallb inAlphabet g) eqn:Halpha.
    + rewrite decodeBlock_ok, bigIntToFixedBytes_digits by assumption.
      repeat split. assumption.
    + destruct (decodeBlock_err g (spec_decoded_width (length g)) Halpha)
        as [c [Hc [_ Hidx]]].
      rewrite Hc. right. exists c. repeat split. assumption.
Qed.

(** All the outcomes of [cnBase58Decode]. *)
Lemma cnBase58Decode_cases (s : jsstring) :
  match cnBase58Decode s with
  | Ok d =>
      forallb inAlphabet s = true /\ ~ In (length s mod 11)%nat [1; 4; 8]%nat
      /\ d = concat (map (fun g => map byte_of_Z
                                     (digits 256 8 (horner 58 (map digitOf g))))
                         (groups 11 s))
             ++ map byte_of_Z
                  (digits 256 (spec_decoded_width (length s mod 11))
                     (horner 58 (map digitOf (trailing 11 s))))
  | Err e =>
      (e = InvalidEncodedBlockSize (length s mod 11)
       /\ In (length s mod 11)%nat [1; 4; 8]%nat)
      \/ (exists c, e = InvalidCharacter c /\ indexOf ALPHABET c = None
                    /\ forallb inAlphabet s = false)
  end.
Proof.
  rewrite cnBase58Decode_groups.
  assert (Halpha : forallb inAlphabet s
                   = forallb (forallb inAlphabet) (groups 11 s)
                     && forallb inAlphabet (trailing 11 s)).
  { rewrite <- (groups_split _ 11 ltac:(lia) s) at 1.
    rewrite forallb_app, forallb_concat. reflexivity. }
  rewrite Halpha, <- (trailing_length _ 11 s).
  destruct (forallb (forallb inAlphabet) (groups 11 s)) eqn:HG.
  - rewrite traverse_decodeBlock_ok by assumption. cbn [bind andb].
    pose proof (decodeLast_cases (trailing 11 s)
                  (trailing_short_length _ 11 ltac:(lia) s)) as Hlast.
    destruct (decodeLast (trailing 11 s)) as [last|e]; cbn [bind].
    + destruct Hlast as [Ht [Hm ->]]. repeat split; assumption.
    + assumption.
  - destruct (traverse_decodeBlock_err _ HG) as [c [Hc Hidx]].
    rewrite Hc. cbn [bind andb]. right. exists c. repeat split. assumption.
Qed.

(** C5. [cnBase58Decode] throws exactly when the string has a code unit
    outside the alphabet or when the length of its last group is 1, 4 or 8;
    the error is then the invalid-character error, raised on a code point
    that [ALPHABET.indexOf] does not find, or the invalid-block-size error
    for that length, and no bytes are returned ([Err] carries none); on
    every other string it returns bytes. *)
Theorem cnBase58Decode_fails_iff (s : jsstring) :
  ((exists e, cnBase58Decode s = Err e)
   <-> (exists u, In u s /\ inAlphabet u = false)
       \/ In (length s mod 11)%nat [1; 4; 8]%nat)
  /\ (forall e, cnBase58Decode s = Err e ->
        (exists c, e = InvalidCharacter c /\ indexOf ALPHABET c = None
                   /\ exists u, In u s /\ inAlphabet u = false)
        \/ (e = InvalidEncodedBlockSize (length s mod 11)
            /\ In (length s mod 11)%nat [1; 4; 8]%nat))
  /\ ((forall u, In u s -> inAlphabet u = true) ->
      ~ In (length s mod 11)%nat [1; 4; 8]%nat ->
      exists d, cnBase58Decode s = Ok d).
Proof.
  pose proof (cnBase58Decode_cases s) as H.
  pose proof (forallb_false_exists _ inAlphabet s) as Hex.
  destruct (cnBase58Decode s) as [d|e].
  - destruct H as [Halpha [Hm _]]. repeat split.
    + intros [e He]. discriminate.
    + intros [Hbad|Hbad]; [|contradiction].
      apply Hex in Hbad. congruence.
    + intros e He. discriminate.
    + intros _ _. exists d. reflexivity.
  - repeat split.
    + intros _. destruct H as [[_ Hm]|[c [_ [_ Halpha]]]];
        [right; assumption | left; apply Hex; assumption].
    + intros _. exists e. reflexivity.
    + intros e' He'. injection He' as <-.
      destruct H as [[He Hm]|[c [He [Hidx Halpha]]]].
      * right. split; assumption.
      * left. exists c. repeat split; try assumption. apply Hex. assumption.
    + intros Hall Hm. exfalso.
      destruct H as [[_ Hbad]|[c [_ [_ Halpha]]]]; [contradiction|].
      apply Hex in Halpha. destruct Halpha as [u [Hu Hout]].
      rewrite (Hall u Hu) in Hout. discriminate.
Qed.

Lemma cnBase58Decode_fails_iff_witness :
  exists d, cnBase58Decode (js "1c") = Ok d.
Proof.
  apply (proj2 (proj2 (cnBase58Decode_fails_iff (js "1c")))).
  - intros u [<-|[<-|[]]]; reflexivity.
  - intros [H|[H|[H|[]]]]; discriminate H.
Defined.

(** C6. When [cnBase58Decode] accepts a string, the number of bytes depends
    on the length of the string only: 8 per full group of 11 characters plus
    the inverse-table size of what remains. Each full group gives the 8 low
    base-256 digits of its base-58 value (zeros in front of a small value,
    the high bytes of an overflowing value dropped), the trailing group the
    same on its own size; a string of 95 characters gives 69 bytes. *)
Theorem cnBase58Decode_length (s : jsstring) (d : list byte) :
  cnBase58Decode s = Ok d ->
  length d = (8 * (length s / 11) + spec_decoded_width (length s mod 11))%nat
  /\ d = concat (map (fun g => map byte_of_Z
                                 (digits 256 8 (horner 58 (map digitOf g))))
                     (groups 11 s))
         ++ map byte_of_Z
              (digits 256 (spec_decoded_width (length s mod 11))
                 (horner 58 (map digitOf (trailing 11 s))))
  /\ (length s = 95%nat -> length d = 69%nat).
Proof.
  intros Hdec. pose proof (cnBase58Decode_cases s) as H.
  rewrite Hdec in H. destruct H as [_ [_ Hd]].
  assert (Hlen : length d
                 = (8 * (length s / 11) + spec_decoded_width (length s mod 11))%nat).
  { rewrite Hd, length_app, length_map, digits_length.
    rewrite (length_concat_uniform _ 8).
    - rewrite length_map, groups_count. reflexivity.
    - apply Forall_forall. intros blk Hblk. apply in_map_iff in Hblk.
      destruct Hblk as [g [<- _]]. rewrite length_map. apply digits_length. }
  repeat split; [assumption|assumption|].
  intros H95. rewrite Hlen, H95. reflexivity.
Qed.

Lemma cnBase58Decode_length_witness :
  cnBase58Decode sample_address = Ok sample_payload
  /\ length sample_address = 95%nat
  /\ length sample_payload
     = (8 * (length sample_address / 11)
        + spec_decoded_width (length sample_address mod 11))%nat
  /\ length sample_payload = 69%nat.
Proof.
  assert (Hdec : cnBase58Decode sample_address = Ok sample_payload)
    by (vm_compute; reflexivity).
  assert (H95 : length sample_address = 95%nat) by reflexivity.
  destruct (cnBase58Decode_length sample_address sample_payload Hdec)
    as [Hlen [_ H69]].
  exact (conj Hdec (conj H95 (conj Hlen (H69 H95)))).
Defined.

(** ** The address decoder *)

Lemma bytesToHex_length (b : list byte) :
  length (bytesToHex b) = (2 * length b)%nat.
Proof.
  induction b as [|x b IH]; [reflexivity|].
  unfold bytesToHex in *. cbn [flat_map length app]. rewrite IH. lia.
Qed.

Lemma bytesToHex_lowercase (b : list byte) :
  forallb isHexDigit (bytesToHex b) = true.
Proof.
  induction b as [|x b IH]; [reflexivity|].
  unfold bytesToHex in *. cbn [flat_map app forallb]. rewrite IH.
  destruct x; reflexivity.
Qed.

Lemma parseHex_bytesToHex (b : list byte) :
  parseHex (bytesToHex b) = map Z_of_byte b.
Proof.
  induction b as [|x b IH]; [reflexivity|].
  unfold bytesToHex in *. cbn [flat_map app parseHex map]. rewrite IH.
  f_equal. destruct x; reflexivity.
Qed.

Lemma decodeStandardAddress_unfold (address : jsstring) :
  decodeStandardAddress address
  = match cnBase58Decode address with
    | Err e => Err e
    | Ok decoded =>
        if (length decoded =? 69)%nat
        then Ok {| prefix := nth 0 decoded x00;
                   publicSpendKeyHex := bytesToHex (firstn 32 (skipn 1 decoded));
                   publicViewKeyHex := bytesToHex (firstn 32 (skipn 33 decoded));
                   checksumHex := bytesToHex (firstn 4 (skipn 65 decoded)) |}
        else Err (InvalidLength (length decoded))
    end.
Proof.
  unfold decodeStandardAddress.
  destruct (cnBase58Decode address) as [decoded|e]; cbn [bind]; [|reflexivity].
  destruct (length decoded =? 69)%nat; reflexivity.
Qed.

Lemma slice_length (X : Type) (l : list X) (from len : nat) :
  (from + len <= length l)%nat -> length (firstn len (skipn from l)) = len.
Proof. intros H. rewrite length_firstn, length_skipn. lia. Qed.

(** C7. When [decodeStandardAddress] succeeds and the codec decodes the
    text to [d], [d] has 69 bytes, the prefix is [d[0]], and the three
    strings are the lowercase hexadecimal renderings of [d[1..33)],
    [d[33..65)] and [d[65..69)]: 64, 64 and 8 characters among
    [0123456789abcdef], whose successive pairs read back as the bytes. *)
Theorem decodeStandardAddress_fields
        (address : jsstring) (d : list byte) (r : DecodedMoneroAddress) :
  cnBase58Decode address = Ok d ->
  decodeStandardAddress address = Ok r ->
  length d = 69%nat
  /\ prefix r = nth 0 d x00
  /\ (publicSpendKeyHex r = bytesToHex (firstn 32 (skipn 1 d))
      /\ length (publicSpendKeyHex r) = 64%nat
      /\ forallb isHexDigit (publicSpendKeyHex r) = true
      /\ parseHex (publicSpendKeyHex r) = map Z_of_byte (firstn 32 (skipn 1 d)))
  /\ (publicViewKeyHex r = bytesToHex (firstn 32 (skipn 33 d))
      /\ length (publicViewKeyHex r) = 64%nat
      /\ forallb isHexDigit (publicViewKeyHex r) = true
      /\ parseHex (publicViewKeyHex r) = map Z_of_byte (firstn 32 (skipn 33 d)))
  /\ (checksumHex r = bytesToHex (firstn 4 (skipn 65 d))
      /\ length (checksumHex r) = 8%nat
      /\ forallb isHexDigit (checksumHex r) = true
      /\ parseHex (checksumHex r) = map Z_of_byte (firstn 4 (skipn 65 d))).
Proof.
  intros Hdec Haddr. rewrite decodeStandardAddress_unfold, Hdec in Haddr.
  destruct (length d =? 69)%nat eqn:Hlen; [|discriminate].
  apply Nat.eqb_eq in Hlen.
  pose proof (slice_length _ d 1 32 ltac:(lia)) as Hspend.
  pose proof (slice_length _ d 33 32 ltac:(lia)) as Hview.
  pose proof (slice_length _ d 65 4 ltac:(lia)) as Hsum.
  set (spend := firstn 32 (skipn 1 d)) in *.
  set (view := firstn 32 (skipn 33 d)) in *.
  set (checksum := firstn 4 (skipn 65 d)) in *.
  assert (Hr : r = {| prefix := nth 0 d x00;
                      publicSpendKeyHex := bytesToHex spend;
                      publicViewKeyHex := bytesToHex view;
                      checksumHex := bytesToHex checksum |}) by congruence.
  rewrite Hr. unfold prefix, publicSpendKeyHex, publicViewKeyHex, checksumHex.
  repeat split; try assumption; try reflexivity;
    try apply bytesToHex_lowercase; try apply parseHex_bytesToHex;
    rewrite bytesToHex_length; lia.
Qed.

Lemma decodeStandardAddress_fields_witness :
  cnBase58Decode sample_address = Ok sample_payload
  /\ decodeStandardAddress sample_address = Ok sample_record
  /\ length sample_payload = 69%nat
  /\ prefix sample_record = nth 0 sample_payload x00
  /\ publicSpendKeyHex sample_record
     = bytesToHex (firstn 32 (skipn 1 sample_payload)).
Proof.
  assert (Hdec : cnBase58Decode sample_address = Ok sample_payload)
    by (vm_compute; reflexivity).
  assert (Haddr : decodeStandardAddress sample_address = Ok sample_record)
    by (vm_compute; reflexivity).
  destruct (decodeStandardAddress_fields sample_address sample_payload
              sample_record Hdec Haddr) as [Hlen [Hprefix [[Hspend _] _]]].
  repeat split; assumption.
Defined.

Lemma cnBase58Decode_error_kind (s : jsstring) (e : error) :
  cnBase58Decode s = Err e -> forall n, e <> InvalidLength n.
Proof.
  intros He n. pose proof (cnBase58Decode_cases s) as H. rewrite He in H.
  destruct H as [[-> _]|[c [-> _]]]; discriminate.
Qed.

(** C8. [decodeStandardAddress] throws the invalid-length error exactly when
    the codec decodes the text to a number of bytes other than 69, and the
    error carries that number; an error of the codec is passed on as it is,
    and is never the invalid-length error. *)
Theorem decodeStandardAddress_errors (address : jsstring) :
  (forall n, decodeStandardAddress address = Err (InvalidLength n)
             <-> exists d, cnBase58Decode address = Ok d
                           /\ length d <> 69%nat /\ n = length d)
  /\ (forall e, cnBase58Decode address = Err e ->
                decodeStandardAddress address = Err e
                /\ forall n, e <> InvalidLength n).
Proof.
  rewrite decodeStandardAddress_unfold.
  pose proof (cnBase58Decode_error_kind address) as Hkind.
  destruct (cnBase58Decode address) as [d|e]; split.
  - intros n. destruct (length d =? 69)%nat eqn:Hlen.
    + apply Nat.eqb_eq in Hlen. split; [discriminate|].
      intros [d' [Hd' [Hne _]]]. injection Hd' as <-. contradiction.
    + apply Nat.eqb_neq in Hlen. split.
      * intros H. injection H as <-. exists d. repeat split. assumption.
      * intros [d' [Hd' [_ ->]]]. injection Hd' as <-. reflexivity.
  - intros e He. discriminate He.
  - intros n. split.
    + intros H. injection H as ->. exfalso. apply (Hkind _ eq_refl n). reflexivity.
    + intros [d [Hd _]]. discriminate Hd.
  - intros e' He'. injection He' as <-. split; [reflexivity|].
    apply Hkind. reflexivity.
Qed.

Lemma decodeStandardAddress_errors_witness :
  cnBase58Decode (js "0") = Err (InvalidEncodedBlockSize 1)
  /\ decodeStandardAddress (js "0") = Err (InvalidEncodedBlockSize 1)
  /\ forall n, InvalidEncodedBlockSize 1 <> InvalidLength n.
Proof.
  split; [vm_compute; reflexivity|].
  apply (proj2 (decodeStandardAddress_errors (js "0")) (InvalidEncodedBlockSize 1)).
  vm_compute. reflexivity.
Defined.

(** C9. No checksum or prefix check: the text of any 69 bytes is accepted
    and decodes to a record that returns the bytes as they are, whatever
    they are: the prefix is the first byte, and the three strings are the
    lowercase hexadecimal renderings of [b[1..33)], [b[33..65)] and
    [b[65..69)], of 64, 64 and 8 characters among [0123456789abcdef], whose
    successive pairs read back as the bytes of the slice. *)
Theorem decodeStandardAddress_cnBase58Encode (b : list byte) :
  length b = 69%nat ->
  exists s r,
    cnBase58Encode b = Ok s
    /\ decodeStandardAddress s = Ok r
    /\ prefix r = nth 0 b x00
    /\ (publicSpendKeyHex r = bytesToHex (firstn 32 (skipn 1 b))
        /\ length (publicSpendKeyHex r) = 64%nat
        /\ forallb isHexDigit (publicSpendKeyHex r) = true
        /\ parseHex (publicSpendKeyHex r) = map Z_of_byte (firstn 32 (skipn 1 b)))
    /\ (publicViewKeyHex r = bytesToHex (firstn 32 (skipn 33 b))
        /\ length (publicViewKeyHex r) = 64%nat
        /\ forallb isHexDigit (publicViewKeyHex r) = true
        /\ parseHex (publicViewKeyHex r) = map Z_of_byte (firstn 32 (skipn 33 b)))
    /\ (checksumHex r = bytesToHex (firstn 4 (skipn 65 b))
        /\ length (checksumHex r) = 8%nat
        /\ forallb isHexDigit (checksumHex r) = true
        /\ parseHex (checksumHex r) = map Z_of_byte (firstn 4 (skipn 65 b)))
    /\ b = prefix r :: map byte_of_Z (parseHex (publicSpendKeyHex r))
                      ++ map byte_of_Z (parseHex (publicViewKeyHex r))
                      ++ map byte_of_Z (parseHex (checksumHex r)).
Proof.
  intros Hlen. rewrite cnBase58Encode_groups.
  pose proof (slice_length _ b 1 32 ltac:(lia)) as Hspend.
  pose proof (slice_length _ b 33 32 ltac:(lia)) as Hview.
  pose proof (slice_length _ b 65 4 ltac:(lia)) as Hsum.
  assert (Hall : b = nth 0 b x00 :: firstn 32 (skipn 1 b)
                       ++ firstn 32 (skipn 33 b) ++ firstn 4 (skipn 65 b)).
  { destruct b as [|p t]; [discriminate Hlen|].
    cbn [nth]. f_equal. injection Hlen as Hlen.
    change (skipn 1 (p :: t)) with t.
    change (skipn 33 (p :: t)) with (skipn 32 t).
    change (skipn 65 (p :: t)) with (skipn 64 t).
    rewrite <- (firstn_skipn 32 t) at 1. f_equal.
    rewrite <- (firstn_skipn 32 (skipn 32 t)) at 1. f_equal.
    rewrite skipn_skipn. change (32 + 32)%nat with 64%nat.
    symmetry. apply firstn_all2. rewrite length_skipn. lia. }
  set (spend := firstn 32 (skipn 1 b)) in *.
  set (view := firstn 32 (skipn 33 b)) in *.
  set (checksum := firstn 4 (skipn 65 b)) in *.
  eexists.
  exists {| prefix := nth 0 b x00;
            publicSpendKeyHex := bytesToHex spend;
            publicViewKeyHex := bytesToHex view;
            checksumHex := bytesToHex checksum |}.
  split; [reflexivity|]. split.
  { rewrite decodeStandardAddress_unfold, decode_written_groups
      by (try apply groups_width; try apply trailing_short_length; lia).
    rewrite (groups_split _ 8 ltac:(lia) b), Hlen. reflexivity. }
  unfold prefix, publicSpendKeyHex, publicViewKeyHex, checksumHex.
  rewrite !parseHex_bytesToHex, !map_byte_of_Z_of_byte, !bytesToHex_length,
    !bytesToHex_lowercase, Hspend, Hview, Hsum.
  split; [reflexivity|].
  split; [split; [reflexivity|split; [reflexivity|split; reflexivity]]|].
  split; [split; [reflexivity|split; [reflexivity|split; reflexivity]]|].
  split; [split; [reflexivity|split; [reflexivity|split; reflexivity]]|].
  exact Hall.
Qed.

Lemma decodeStandardAddress_cnBase58Encode_witness :
  length sample_payload = 69%nat
  /\ exists s r,
       cnBase58Encode sample_payload = Ok s
       /\ decodeStandardAddress s = Ok r
       /\ prefix r = nth 0 sample_payload x00
       /\ parseHex (checksumHex r)
          = map Z_of_byte (firstn 4 (skipn 65 sample_payload)).
Proof.
  split; [reflexivity|].
  destruct (decodeStandardAddress_cnBase58Encode sample_payload eq_refl)
    as [s [r [Henc [Hdec [Hprefix [_ [_ [[_ [_ [_ Hsum]]] _]]]]]]]].
  exists s, r.
  exact (conj Henc (conj Hdec (conj Hprefix Hsum))).
Defined.

(** ** Further properties: size tables and big integers *)

(** X1. The two size tables are inverse of each other, and
    [getEncodedBlockSize] is defined exactly on the sizes 1 to 8. *)
Theorem size_tables_inverse (decodedSize encodedSize : nat) :
  (getEncodedBlockSize decodedSize = Ok encodedSize
   <-> getDecodedBlockSize encodedSize = Ok decodedSize)
  /\ ((exists e, getEncodedBlockSize decodedSize = Ok e)
      <-> (1 <= decodedSize <= 8)%nat).
Proof.
  split; split.
  - intros H.
    do 9 (destruct decodedSize as [|decodedSize];
          [try discriminate H; injection H as <-; reflexivity|]).
    discriminate H.
  - intros H.
    do 12 (destruct encodedSize as [|encodedSize];
           [try discriminate H; injection H as <-; reflexivity|]).
    discriminate H.
  - intros [e H].
    do 9 (destruct decodedSize as [|decodedSize]; [try discriminate H; lia|]).
    discriminate H.
  - intros H. exists (encodedWidth decodedSize). apply getEncodedBlockSize_ok. assumption.
Qed.

(** X2. The width that the table gives to a block of [d] bytes is the least
    number of base-58 digits that can hold every value of [d] bytes. *)
Theorem encoded_size_minimal (decodedSize encodedSize : nat) :
  getEncodedBlockSize decodedSize = Ok encodedSize ->
  58 ^ (Z.of_nat encodedSize - 1) < 256 ^ Z.of_nat decodedSize
  /\ 256 ^ Z.of_nat decodedSize <= 58 ^ Z.of_nat encodedSize.
Proof.
  intros H.
  do 9 (destruct decodedSize as [|decodedSize];
        [first [ discriminate H
               | injection H as <-;
                 split; [reflexivity | intros C; vm_compute in C; discriminate C] ]|]).
  discriminate H.
Qed.

Lemma encoded_size_minimal_witness :
  58 ^ (Z.of_nat 11 - 1) < 256 ^ Z.of_nat 8
  /\ 256 ^ Z.of_nat 8 <= 58 ^ Z.of_nat 11.
Proof. apply (encoded_size_minimal 8 11). reflexivity. Defined.

Lemma horner_app (B : Z) (a b : list Z) :
  horner B (a ++ b) = horner B a * B ^ Z.of_nat (length b) + horner B b.
Proof.
  induction b as [|d b IH] using rev_ind.
  - rewrite app_nil_r. unfold horner at 3. simpl. lia.
  - rewrite app_assoc, !horner_snoc, IH, length_app. simpl length.
    rewrite Nat.add_1_r, Nat2Z.inj_succ, Z.pow_succ_r by lia. ring.
Qed.

(** X3. [bytesToBigInt] reads the bytes as a big-endian number: the value of
    a concatenation is the value of the first part shifted by the length of
    the second plus the value of the second, and a value of [n] bytes lies
    in [0, 256^n). *)
Theorem bytesToBigInt_app (a b : list byte) :
  bytesToBigInt (a ++ b)
  = bytesToBigInt a * 256 ^ Z.of_nat (length b) + bytesToBigInt b
  /\ 0 <= bytesToBigInt a < 256 ^ Z.of_nat (length a).
Proof.
  split; [|apply bytesToBigInt_range].
  rewrite !bytesToBigInt_horner, map_app, horner_app, length_map. reflexivity.
Qed.

(** X4. Two byte sequences of the same length with the same value are
    equal. *)
Theorem bytesToBigInt_injective (a b : list byte) :
  length a = length b -> bytesToBigInt a = bytesToBigInt b -> a = b.
Proof.
  intros Hlen Hval.
  rewrite <- (bigIntToFixedBytes_bytesToBigInt a).
  rewrite <- (bigIntToFixedBytes_bytesToBigInt b).
  rewrite Hlen, Hval. reflexivity.
Qed.

Lemma bytesToBigInt_injective_witness :
  length [x01; x02] = length [x01; x02]
  /\ bytesToBigInt [x01; x02] = bytesToBigInt [x01; x02]
  /\ [x01; x02] = [x01; x02].
Proof.
  split; [reflexivity|]. split; [reflexivity|].
  apply (bytesToBigInt_injective [x01; x02] [x01; x02]); reflexivity.
Defined.

(** X5. [bigIntToFixedBytes] writes exactly [size] bytes; it gives back the
    bytes of a value read by [bytesToBigInt], and reading what it wrote
    gives the value modulo [256^size], also for a negative value. *)
Theorem bigIntToFixedBytes_roundtrip (n : Z) (size : nat) (bs : list byte) :
  length (bigIntToFixedBytes n size) = size
  /\ bigIntToFixedBytes (bytesToBigInt bs) (length bs) = bs
  /\ bytesToBigInt (bigIntToFixedBytes n size) = n mod 256 ^ Z.of_nat size.
Proof.
  split; [apply bigIntToFixedBytes_length|].
  split; [apply bigIntToFixedBytes_bytesToBigInt|].
  apply bytesToBigInt_bigIntToFixedBytes.
Qed.

Lemma bigIntToBytesMinimal_loop_minimal (fuel : nat) (n : Z) (bytes : list byte) :
  0 <= n < 2 ^ Z.of_nat fuel ->
  exists m : nat,
    bigIntToBytesMinimal_loop fuel n bytes
    = bytes ++ rev (map byte_of_Z (digits 256 m n))
    /\ n < 256 ^ Z.of_nat m
    /\ (n = 0 -> m = 0%nat)
    /\ (0 < n -> (0 < m)%nat /\ 256 ^ (Z.of_nat m - 1) <= n).
Proof.
  revert n bytes. induction fuel as [|fuel IH]; intros n bytes Hn.
  - exists 0%nat. simpl in *. rewrite app_nil_r. repeat split; lia.
  - cbn [bigIntToBytesMinimal_loop]. destruct (0 <? n) eqn:Hpos.
    + apply Z.ltb_lt in Hpos.
      rewrite Nat2Z.inj_succ, Z.pow_succ_r in Hn by lia.
      pose proof (Z.div_mod n 256 ltac:(lia)) as Hdm.
      pose proof (Z.mod_pos_bound n 256 ltac:(lia)) as Hmod.
      assert (Hq : 0 <= n / 256) by (apply Z.div_pos; lia).
      destruct (IH (Z.shiftr n 8) (bytes ++ [byte_of_Z (Z.land n 255)]))
        as [m [Hm [Hlt [Hzero Hmin]]]].
      { rewrite shiftr_8. split; [assumption|].
        apply Z.div_lt_upper_bound; lia. }
      rewrite shiftr_8 in Hlt, Hzero, Hmin.
      exists (S m). rewrite Hm. cbn [digits].
      rewrite map_app, rev_app_distr, <- app_assoc, shiftr_8, land_255.
      split; [reflexivity|].
      rewrite Nat2Z.inj_succ, Z.pow_succ_r by lia.
      split; [lia|]. split; [lia|]. intros _. split; [lia|].
      replace (Z.succ (Z.of_nat m) - 1) with (Z.of_nat m) by lia.
      destruct (Z.eq_dec (n / 256) 0) as [Hz|Hnz].
      * rewrite (Hzero Hz). simpl. lia.
      * destruct (Hmin ltac:(lia)) as [Hmpos Hge].
        replace (Z.of_nat m) with (Z.succ (Z.of_nat m - 1)) by lia.
        rewrite Z.pow_succ_r by lia. lia.
    + apply Z.ltb_ge in Hpos. exists 0%nat. simpl.
      rewrite app_nil_r. repeat split; lia.
Qed.

(** X6. [bigIntToBytesMinimal] returns the shortest big-endian writing of a
    positive number: reading it gives the number back and its length [k]
    satisfies [256^(k-1) <= n < 256^k]. Zero is written as the single byte
    0, and for a negative number the loop does not run and the result is
    empty. *)
Theorem bigIntToBytesMinimal_spec (n : Z) :
  (0 < n ->
   bytesToBigInt (bigIntToBytesMinimal n) = n
   /\ 256 ^ (Z.of_nat (length (bigIntToBytesMinimal n)) - 1) <= n
   /\ n < 256 ^ Z.of_nat (length (bigIntToBytesMinimal n)))
  /\ (n = 0 -> bigIntToBytesMinimal n = [x00])
  /\ (n < 0 -> bigIntToBytesMinimal n = []).
Proof.
  split; [|split].
  - intros Hpos. unfold bigIntToBytesMinimal.
    replace (n =? 0) with false by (symmetry; apply Z.eqb_neq; lia).
    destruct (bigIntToBytesMinimal_loop_minimal (minimal_fuel n) n [])
      as [m [Hm [Hlt [_ Hmin]]]].
    { split; [lia|]. apply minimal_fuel_bound. lia. }
    destruct (Hmin Hpos) as [Hmpos Hge].
    rewrite Hm. cbn [app]. rewrite rev_involutive, length_map, digits_length.
    split; [|split; assumption].
    rewrite bytesToBigInt_horner, map_Z_of_byte_of_Z by (apply digits_range; lia).
    rewrite horner_digits by lia. apply Z.mod_small. lia.
  - intros ->. reflexivity.
  - intros Hneg. unfold bigIntToBytesMinimal.
    replace (n =? 0) with false by (symmetry; apply Z.eqb_neq; lia).
    unfold minimal_fuel. cbn [bigIntToBytesMinimal_loop].
    replace (0 <? n) with false by (symmetry; apply Z.ltb_ge; lia).
    reflexivity.
Qed.

Lemma bigIntToBytesMinimal_spec_witness :
  0 < 3363
  /\ bytesToBigInt (bigIntToBytesMinimal 3363) = 3363
  /\ 256 ^ (Z.of_nat (length (bigIntToBytesMinimal 3363)) - 1) <= 3363
  /\ 3363 < 256 ^ Z.of_nat (length (bigIntToBytesMinimal 3363)).
Proof.
  split; [reflexivity|].
  apply (proj1 (bigIntToBytesMinimal_spec 3363)). reflexivity.
Defined.

(** ** Further properties: blocks *)

(** X7. What [encodeBlock] writes is made of characters of the alphabet and
    denotes the value of the block modulo [58^encodedSize]: digits beyond
    the requested width are lost. *)
Theorem encodeBlock_value (data : list byte) (encodedSize : nat) :
  forallb inAlphabet (encodeBlock data encodedSize) = true
  /\ decodeBlock_loop (code_points (encodeBlock data encodedSize)) 0
     = Ok (bytesToBigInt data mod 58 ^ Z.of_nat encodedSize).
Proof.
  split; [apply encodeBlock_inAlphabet|].
  rewrite decodeBlock_loop_ok by apply encodeBlock_inAlphabet.
  rewrite encodeBlock_digits.
  rewrite map_digitOf_alphaChar by (apply digits_range; lia).
  rewrite horner_digits by lia. reflexivity.
Qed.

(** X8. The padding and cutting at the end of [decodeBlock] never writes
    outside the block and is [bigIntToFixedBytes] of the value of the group:
    [decodeBlock] can only fail on a character. *)
Theorem decodeBlock_bigIntToFixedBytes (data : jsstring) (decodedSize : nat) :
  decodeBlock data decodedSize
  = (let* num := decodeBlock_loop (code_points data) 0 in
     Ok (bigIntToFixedBytes num decodedSize))
  /\ decodeBlock data decodedSize <> Err RangeError.
Proof.
  destruct (decodeBlock_loop (code_points data) 0) as [num|e] eqn:Hloop.
  - rewrite (decodeBlock_fixed data decodedSize num Hloop). cbn [bind].
    split; [reflexivity|discriminate].
  - unfold decodeBlock. rewrite Hloop. cbn [bind]. split; [reflexivity|].
    destruct (forallb inAlphabet data) eqn:Halpha.
    + rewrite decodeBlock_loop_ok in Hloop by assumption. discriminate Hloop.
    + destruct (decodeBlock_loop_err data 0 Halpha) as [c [Hc _]].
      rewrite Hc in Hloop. injection Hloop as <-. discriminate.
Qed.

(** X9. A group may start with any number of the zero digit ["1"]: the
    decoded block is the same, so groups of different lengths can denote
    the same block. *)
Theorem decodeBlock_leading_one (data : jsstring) (decodedSize : nat) :
  decodeBlock (js "1" ++ data) decodedSize = decodeBlock data decodedSize.
Proof.
  unfold decodeBlock.
  assert (Hcp : code_points (js "1" ++ data) = js "1" :: code_points data)
    by (destruct data; reflexivity).
  rewrite Hcp. reflexivity.
Qed.

(** ** Further properties: the codec *)

Lemma traverse_app (X Y : Type) (f : X -> result Y) (a b : list X) :
  traverse f (a ++ b)
  = let* x := traverse f a in let* y := traverse f b in Ok (x ++ y).
Proof.
  induction a as [|x a IH]; cbn [app traverse bind].
  - destruct (traverse f b); reflexivity.
  - destruct (f x) as [y|e]; cbn [bind]; [|reflexivity].
    rewrite IH. destruct (traverse f a) as [ys|e]; cbn [bind]; [|reflexivity].
    destruct (traverse f b); reflexivity.
Qed.

Lemma groups_app (X : Type) (w : nat) (a b : list X) :
  (0 < w)%nat -> (length a mod w = 0)%nat ->
  groups w (a ++ b) = groups w a ++ groups w b
  /\ trailing w (a ++ b) = trailing w b
  /\ trailing w a = [].
Proof.
  intros Hw Hmod.
  pose proof (groups_split X w Hw a) as Ha.
  pose proof (groups_split X w Hw b) as Hb.
  pose proof (groups_width X w Hw a) as Hwa.
  pose proof (groups_width X w Hw b) as Hwb.
  pose proof (trailing_short_length X w Hw b) as Hsb.
  assert (Hta : trailing w a = []).
  { pose proof (trailing_length X w a) as Hl. rewrite Hmod in Hl.
    destruct (trailing w a); [reflexivity|discriminate Hl]. }
  rewrite Hta, app_nil_r in Ha.
  assert (Hab : a ++ b = concat (groups w a ++ groups w b) ++ trailing w b).
  { rewrite concat_app, <- app_assoc, Hb, Ha. reflexivity. }
  assert (Hwab : Forall (fun g => length g = w) (groups w a ++ groups w b))
    by (apply Forall_app; split; assumption).
  rewrite Hab at 1 2.
  rewrite (groups_concat X w Hw _ _ Hwab Hsb).
  rewrite (trailing_concat X w Hw _ _ Hwab Hsb).
  split; [reflexivity|]. split; [reflexivity|assumption].
Qed.

(** X10. [cnBase58Encode] writes characters of the alphabet only. *)
Theorem cnBase58Encode_inAlphabet (data : list byte) (s : jsstring) :
  cnBase58Encode data = Ok s -> forallb inAlphabet s = true.
Proof.
  rewrite cnBase58Encode_groups. intros H. injection H as <-.
  rewrite forallb_app, forallb_concat, encodeBlock_inAlphabet, andb_true_r.
  apply forallb_forall. intros g Hg. apply in_map_iff in Hg.
  destruct Hg as [blk [<- _]]. apply encodeBlock_inAlphabet.
Qed.

Lemma cnBase58Encode_inAlphabet_witness :
  cnBase58Encode sample_payload = Ok sample_address
  /\ forallb inAlphabet sample_address = true.
Proof.
  split; [vm_compute; reflexivity|].
  apply (cnBase58Encode_inAlphabet sample_payload sample_address).
  vm_compute. reflexivity.
Defined.

(** X11. [cnBase58Encode] is injective: two byte sequences with the same
    text are equal. *)
Theorem cnBase58Encode_injective (a b : list byte) (s : jsstring) :
  cnBase58Encode a = Ok s -> cnBase58Encode b = Ok s -> a = b.
Proof.
  assert (Hdec : forall x, cnBase58Encode x = Ok s -> cnBase58Decode s = Ok x).
  { intros x. rewrite cnBase58Encode_groups. intros H. injection H as <-.
    rewrite decode_written_groups
      by (try apply groups_width; try apply trailing_short_length; lia).
    rewrite (groups_split _ 8 ltac:(lia) x). reflexivity. }
  intros Ha Hb. apply Hdec in Ha. apply Hdec in Hb. congruence.
Qed.

Lemma cnBase58Encode_injective_witness :
  cnBase58Encode [x23] = Ok (js "1c")
  /\ [x23] = [x23].
Proof.
  split; [vm_compute; reflexivity|].
  apply (cnBase58Encode_injective [x23] [x23] (js "1c")); vm_compute; reflexivity.
Defined.

(** X12. Texts of whole blocks concatenate: when the first sequence is made
    of full 8-byte blocks, the text of a concatenation is the concatenation
    of the texts. *)
Theorem cnBase58Encode_app (a b : list byte) :
  (length a mod 8 = 0)%nat ->
  cnBase58Encode (a ++ b)
  = let* sa := cnBase58Encode a in
    let* sb := cnBase58Encode b in
    Ok (sa ++ sb).
Proof.
  intros Hmod. rewrite !cnBase58Encode_groups. cbn [bind].
  destruct (groups_app byte 8 a b ltac:(lia) Hmod) as [HG [HT Hta]].
  rewrite HG, HT, Hta, map_app, concat_app.
  change (encodeBlock [] (encodedWidth (length []))) with (@nil codeunit).
  rewrite app_nil_r, app_assoc. reflexivity.
Qed.

Lemma cnBase58Encode_app_witness :
  (length [x00; x00; x00; x00; x00; x00; x00; xff] mod 8 = 0)%nat
  /\ cnBase58Encode ([x00; x00; x00; x00; x00; x00; x00; xff] ++ [x23])
     = (let* sa := cnBase58Encode [x00; x00; x00; x00; x00; x00; x00; xff] in
        let* sb := cnBase58Encode [x23] in
        Ok (sa ++ sb)).
Proof.
  split; [reflexivity|].
  apply (cnBase58Encode_app [x00; x00; x00; x00; x00; x00; x00; xff] [x23]).
  reflexivity.
Defined.

(** X13. The same for decoding: when the first string is made of full
    11-character groups, decoding a concatenation decodes both parts, the
    first failure being reported. *)
Theorem cnBase58Decode_app (s t : jsstring) :
  (length s mod 11 = 0)%nat ->
  cnBase58Decode (s ++ t)
  = let* a := cnBase58Decode s in
    let* b := cnBase58Decode t in
    Ok (a ++ b).
Proof.
  intros Hmod. rewrite !cnBase58Decode_groups.
  destruct (groups_app codeunit 11 s t ltac:(lia) Hmod) as [HG [HT Hts]].
  rewrite HG, HT, Hts, traverse_app.
  change (decodeLast []) with (@Ok (list byte) []).
  unfold jsstring.
  destruct (traverse _ (groups 11 s)) as [bs|e]; cbn [bind]; [|reflexivity].
  destruct (traverse _ (groups 11 t)) as [bt|e]; cbn [bind]; [|reflexivity].
  destruct (decodeLast (trailing 11 t)) as [last|e]; cbn [bind]; [|reflexivity].
  rewrite concat_app, !app_nil_r, app_assoc. reflexivity.
Qed.

Lemma cnBase58Decode_app_witness :
  (length (js "1111111115Q") mod 11 = 0)%nat
  /\ cnBase58Decode (js "1111111115Q" ++ js "1c")
     = (let* a := cnBase58Decode (js "1111111115Q") in
        let* b := cnBase58Decode (js "1c") in
        Ok (a ++ b)).
Proof.
  split; [reflexivity|].
  apply (cnBase58Decode_app (js "1111111115Q") (js "1c")). reflexivity.
Defined.

Lemma cnBase58Decode_ok_length (s : jsstring) (d : list byte) :
  cnBase58Decode s = Ok d ->
  length d = (8 * (length s / 11) + spec_decoded_width (length s mod 11))%nat
  /\ forallb inAlphabet s = true
  /\ ~ In (length s mod 11)%nat [1; 4; 8]%nat.
Proof.
  intros Hdec. pose proof (cnBase58Decode_cases s) as H.
  rewrite Hdec in H. destruct H as [Halpha [Hm Hd]].
  repeat split; try assumption.
  rewrite Hd, length_app, length_map, digits_length.
  rewrite (length_concat_uniform _ 8).
  - rewrite length_map, groups_count. reflexivity.
  - apply Forall_forall. intros blk Hblk. apply in_map_iff in Hblk.
    destruct Hblk as [g [<- _]]. rewrite length_map. apply digits_length.
Qed.

Lemma decoded_width_inverse (m : nat) :
  (m < 11)%nat -> ~ In m [1; 4; 8]%nat ->
  (spec_decoded_width m < 8)%nat
  /\ spec_encoded_width (spec_decoded_width m) = m.
Proof.
  intros Hlt Hgood.
  do 11 (destruct m as [|m];
         [first [ split; [cbn; lia | reflexivity]
                | exfalso; apply Hgood; cbn; tauto ]|]).
  lia.
Qed.

(** X14. The length of an accepted string is determined by the number of
    bytes it decodes to: it is the length that [cnBase58Encode] gives to
    that many bytes. *)
Theorem cnBase58Decode_input_length (s : jsstring) (d : list byte) :
  cnBase58Decode s = Ok d ->
  length s = (11 * (length d / 8) + spec_encoded_width (length d mod 8))%nat.
Proof.
  intros Hdec.
  destruct (cnBase58Decode_ok_length s d Hdec) as [Hlen [_ Hgood]].
  pose proof (Nat.mod_upper_bound (length s) 11 ltac:(lia)) as Hm.
  destruct (decoded_width_inverse (length s mod 11) Hm Hgood) as [Hc Hinv].
  assert (Hq : (length d / 8 = length s / 11)%nat)
    by (symmetry; apply Nat.div_unique with (spec_decoded_width (length s mod 11)); lia).
  assert (Hr : (length d mod 8 = spec_decoded_width (length s mod 11))%nat)
    by (symmetry; apply Nat.mod_unique with (length s / 11)%nat; lia).
  rewrite Hq, Hr, Hinv. apply Nat.Div0.div_mod.
Qed.

Lemma cnBase58Decode_input_length_witness :
  cnBase58Decode sample_address = Ok sample_payload
  /\ length sample_address
     = (11 * (length sample_payload / 8)
        + spec_encoded_width (length sample_payload mod 8))%nat.
Proof.
  split; [vm_compute; reflexivity|].
  apply (cnBase58Decode_input_length sample_address sample_payload).
  vm_compute. reflexivity.
Defined.

(** ** Further properties: the address decoder *)

(** X15. [decodeStandardAddress] accepts exactly the strings of 95
    characters of the alphabet. *)
Theorem decodeStandardAddress_accepts_iff (address : jsstring) :
  (exists r, decodeStandardAddress address = Ok r)
  <-> length address = 95%nat /\ forallb inAlphabet address = true.
Proof.
  rewrite decodeStandardAddress_unfold. split.
  - intros [r Hr].
    destruct (cnBase58Decode address) as [d|e] eqn:Hdec; [|discriminate Hr].
    destruct (length d =? 69)%nat eqn:H69; [|discriminate Hr].
    apply Nat.eqb_eq in H69.
    destruct (cnBase58Decode_ok_length address d Hdec) as [Hlen [Halpha Hgood]].
    split; [|assumption].
    pose proof (Nat.mod_upper_bound (length address) 11 ltac:(lia)) as Hm.
    pose proof (Nat.Div0.div_mod (length address) 11) as Hdiv.
    rewrite H69 in Hlen.
    remember (length address mod 11)%nat as m eqn:Em.
    remember (length address / 11)%nat as q eqn:Eq.
    clear Em Eq Hgood.
    do 11 (destruct m as [|m]; [cbn in Hlen; lia|]). lia.
  - intros [H95 Halpha].
    pose proof (cnBase58Decode_cases address) as H.
    destruct (cnBase58Decode address) as [d|e] eqn:Hdec.
    + destruct (cnBase58Decode_ok_length address d Hdec) as [Hlen _].
      rewrite H95 in Hlen. change (length d = 69%nat) in Hlen.
      rewrite Hlen. cbn [Nat.eqb]. eexists. reflexivity.
    + exfalso. rewrite H95 in H.
      destruct H as [[_ Hbad]|[c [_ [_ Hout]]]].
      * cbn in Hbad. destruct Hbad as [C|[C|[C|[]]]]; discriminate C.
      * congruence.
Qed.

Lemma address_slices (d : list byte) :
  length d = 69%nat ->
  d = nth 0 d x00 :: firstn 32 (skipn 1 d) ++ firstn 32 (skipn 33 d)
                     ++ firstn 4 (skipn 65 d).
Proof.
  intros Hlen. destruct d as [|p t]; [discriminate Hlen|].
  cbn [nth]. f_equal. injection Hlen as Hlen.
  change (skipn 1 (p :: t)) with t.
  change (skipn 33 (p :: t)) with (skipn 32 t).
  change (skipn 65 (p :: t)) with (skipn 64 t).
  rewrite <- (firstn_skipn 32 t) at 1. f_equal.
  rewrite <- (firstn_skipn 32 (skipn 32 t)) at 1. f_equal.
  rewrite skipn_skipn. change (32 + 32)%nat with 64%nat.
  symmetry. apply firstn_all2. rewrite length_skipn. lia.
Qed.

(** X16. The record keeps all the decoded bytes: the prefix followed by the
    bytes read back from the three hexadecimal strings is what the codec
    decoded. *)
Theorem decodeStandardAddress_keeps_bytes
        (address : jsstring) (r : DecodedMoneroAddress) :
  decodeStandardAddress address = Ok r ->
  cnBase58Decode address
  = Ok (prefix r :: map byte_of_Z (parseHex (publicSpendKeyHex r))
                    ++ map byte_of_Z (parseHex (publicViewKeyHex r))
                    ++ map byte_of_Z (parseHex (checksumHex r))).
Proof.
  rewrite decodeStandardAddress_unfold.
  destruct (cnBase58Decode address) as [d|e]; [|discriminate].
  destruct (length d =? 69)%nat eqn:H69; [|discriminate].
  apply Nat.eqb_eq in H69. intros Hr.
  pose proof (address_slices d H69) as Hd.
  set (spend := firstn 32 (skipn 1 d)) in *.
  set (view := firstn 32 (skipn 33 d)) in *.
  set (checksum := firstn 4 (skipn 65 d)) in *.
  assert (Er : r = {| prefix := nth 0 d x00;
                      publicSpendKeyHex := bytesToHex spend;
                      publicViewKeyHex := bytesToHex view;
                      checksumHex := bytesToHex checksum |}) by congruence.
  rewrite Er. unfold prefix, publicSpendKeyHex, publicViewKeyHex, checksumHex.
  rewrite !parseHex_bytesToHex, !map_byte_of_Z_of_byte, <- Hd. reflexivity.
Qed.

Lemma decodeStandardAddress_keeps_bytes_witness :
  decodeStandardAddress sample_address = Ok sample_record
  /\ cnBase58Decode sample_address
     = Ok (prefix sample_record
             :: map byte_of_Z (parseHex (publicSpendKeyHex sample_record))
             ++ map byte_of_Z (parseHex (publicViewKeyHex sample_record))
             ++ map byte_of_Z (parseHex (checksumHex sample_record))).
Proof.
  split; [vm_compute; reflexivity|].
  apply (decodeStandardAddress_keeps_bytes sample_address sample_record).
  vm_compute. reflexivity.
Defined.

(** X17. Writing the decoded bytes of an accepted address again gives an
    address with the same record and without overflowing group: every
    accepted address has a canonical form. The original address need not be
    canonical: there is an accepted address with an overflowing group,
    which differs from its canonical form. *)
Theorem decodeStandardAddress_canonical :
  (forall (address : jsstring) (r : DecodedMoneroAddress),
      decodeStandardAddress address = Ok r ->
      exists d s,
        cnBase58Decode address = Ok d
        /\ cnBase58Encode d = Ok s
        /\ decodeStandardAddress s = Ok r
        /\ noOverflow s = true)
  /\ (exists (address : jsstring) (r : DecodedMoneroAddress) d s,
        decodeStandardAddress address = Ok r
        /\ noOverflow address = false
        /\ cnBase58Decode address = Ok d
        /\ cnBase58Encode d = Ok s
        /\ s <> address).
Proof.
  split.
  - intros address r Hr. rewrite decodeStandardAddress_unfold in Hr.
    destruct (cnBase58Decode address) as [d|e]; [|discriminate Hr].
    exists d.
    destruct (cnBase58Encode d) as [s|e] eqn:Henc.
    + exists s. split; [reflexivity|]. split; [reflexivity|].
      split; [|apply (noOverflow_cnBase58Encode d s Henc)].
      rewrite decodeStandardAddress_unfold.
      rewrite cnBase58Encode_groups in Henc. injection Henc as <-.
      rewrite decode_written_groups
        by (try apply groups_width; try apply trailing_short_length; lia).
      rewrite (groups_split _ 8 ltac:(lia) d). assumption.
    + rewrite cnBase58Encode_groups in Henc. discriminate Henc.
  - exists overflowing_address. do 3 eexists.
    split; [vm_compute; reflexivity|].
    split; [vm_compute; reflexivity|].
    split; [vm_compute; reflexivity|].
    split; [vm_compute; reflexivity|].
    vm_compute. discriminate.
Qed.

Lemma decodeStandardAddress_canonical_witness :
  exists r,
    decodeStandardAddress overflowing_address = Ok r
    /\ noOverflow overflowing_address = false
    /\ exists d s,
         cnBase58Decode overflowing_address = Ok d
         /\ cnBase58Encode d = Ok s
         /\ decodeStandardAddress s = Ok r
         /\ noOverflow s = true.
Proof.
  eexists.
  split; [vm_compute; reflexivity|].
  split; [vm_compute; reflexivity|].
  apply (proj1 decodeStandardAddress_canonical overflowing_address).
  vm_compute. reflexivity.
Defined.

Lemma decodeStandardAddress_accepts_iff_witness :
  exists r, decodeStandardAddress sample_address = Ok r.
Proof.
  apply (proj2 (decodeStandardAddress_accepts_iff sample_address)).
  split; [reflexivity | vm_compute; reflexivity].
Defined.

(** ** Further properties: the payment URI *)

Lemma code_points_shape (s : jsstring) (c : jsstring) :
  In c (code_points s) ->
  (exists u, c = [u] /\ In u s)
  \/ (exists hi lo, c = [hi; lo]
                    /\ is_high_surrogate hi = true /\ is_low_surrogate lo = true).
Proof.
  remember (length s) as n eqn:Hn. revert s Hn c.
  induction n as [n IH] using lt_wf_ind. intros s Hn c Hc.
  destruct s as [|u [|v t]]; cbn [code_points] in Hc.
  - destruct Hc.
  - destruct Hc as [<-|[]]. left. exists u. split; [reflexivity|left; reflexivity].
  - destruct (is_high_surrogate u && is_low_surrogate v) eqn:Hsur.
    + destruct Hc as [<-|Hc].
      * apply andb_true_iff in Hsur. right. exists u, v. tauto.
      * destruct (IH (length t) ltac:(subst n; simpl; lia) t eq_refl c Hc)
          as [[x [-> Hx]]|Hpair]; [|right; assumption].
        left. exists x. split; [reflexivity|right; right; assumption].
    + destruct Hc as [<-|Hc].
      * left. exists u. split; [reflexivity|left; reflexivity].
      * destruct (IH (length (v :: t)) ltac:(subst n; simpl; lia) (v :: t) eq_refl c Hc)
          as [[x [-> Hx]]|Hpair]; [|right; assumption].
        left. exists x. split; [reflexivity|right; assumption].
Qed.

Lemma scalar_value_bound (s c : jsstring) :
  wellFormed s -> In c (code_points s) -> (scalar_value c < 1114112)%N.
Proof.
  intros Hwf Hc. destruct (code_points_shape s c Hc) as [[u [-> Hu]]|[hi [lo [-> [Hhi Hlo]]]]].
  - unfold wellFormed in Hwf. rewrite Forall_forall in Hwf. specialize (Hwf u Hu).
    cbn [scalar_value]. destruct (is_high_surrogate u || is_low_surrogate u); lia.
  - cbn [scalar_value]. unfold is_high_surrogate, is_low_surrogate in *.
    apply andb_true_iff in Hhi, Hlo.
    rewrite !N.leb_le in Hhi, Hlo. lia.
Qed.

Lemma utf8_encode_bytes (cp : N) :
  (cp < 1114112)%N -> Forall (fun b => (b < 256)%N) (utf8_encode cp).
Proof.
  intros Hcp. unfold utf8_encode.
  destruct (cp <? 128)%N eqn:H1; [apply N.ltb_lt in H1; repeat constructor; lia|].
  destruct (cp <? 2048)%N eqn:H2.
  { apply N.ltb_lt in H2.
    pose proof (N.mod_upper_bound cp 64 ltac:(lia)).
    assert (cp / 64 < 32)%N by (apply N.Div0.div_lt_upper_bound; lia).
    repeat constructor; lia. }
  destruct (cp <? 65536)%N eqn:H3.
  { apply N.ltb_lt in H3.
    pose proof (N.mod_upper_bound cp 64 ltac:(lia)).
    pose proof (N.mod_upper_bound (cp / 64) 64 ltac:(lia)).
    assert (cp / 4096 < 16)%N by (apply N.Div0.div_lt_upper_bound; lia).
    repeat constructor; lia. }
  pose proof (N.mod_upper_bound cp 64 ltac:(lia)).
  pose proof (N.mod_upper_bound (cp / 64) 64 ltac:(lia)).
  pose proof (N.mod_upper_bound (cp / 4096) 64 ltac:(lia)).
  assert (cp / 262144 < 5)%N by (apply N.Div0.div_lt_upper_bound; lia).
  repeat constructor; lia.
Qed.

Lemma urlencoded_byte_chars (b : N) :
  (b < 256)%N -> forallb isValueChar (urlencoded_byte b) = true.
Proof.
  intros Hb.
  assert (F : forallb (fun x => forallb isValueChar (urlencoded_byte x))
                (map N.of_nat (seq 0 256)) = true) by (vm_compute; reflexivity).
  rewrite forallb_forall in F. apply F.
  apply in_map_iff. exists (N.to_nat b). split; [lia|]. apply in_seq. lia.
Qed.

Lemma forallb_flat_map (X Y : Type) (p : Y -> bool) (f : X -> list Y) (l : list X) :
  (forall x, In x l -> forallb p (f x) = true) ->
  forallb p (flat_map f l) = true.
Proof.
  induction l as [|x l IH]; intros H; [reflexivity|].
  cbn [flat_map]. rewrite forallb_app, H by (left; reflexivity).
  apply IH. intros y Hy. apply H. right. assumption.
Qed.

Lemma urlencoded_string_chars (s : jsstring) :
  wellFormed s -> forallb isValueChar (urlencoded_string s) = true.
Proof.
  intros Hwf. unfold urlencoded_string. apply forallb_flat_map.
  intros b Hb. apply urlencoded_byte_chars.
  apply in_flat_map in Hb. destruct Hb as [c [Hc Hb]].
  pose proof (utf8_encode_bytes (scalar_value c) (scalar_value_bound s c Hwf Hc)) as F.
  rewrite Forall_forall in F. apply F. assumption.
Qed.

Lemma value_chars_count (l : jsstring) :
  forallb isValueChar l = true ->
  count_occ N.eq_dec l 61%N = 0%nat /\ count_occ N.eq_dec l 38%N = 0%nat.
Proof.
  induction l as [|u l IH]; intros H; [split; reflexivity|].
  cbn [forallb] in H. apply andb_true_iff in H. destruct H as [Hu Hl].
  destruct (IH Hl) as [H1 H2].
  split.
  - rewrite count_occ_cons_neq; [assumption|]. intros ->. discriminate Hu.
  - rewrite count_occ_cons_neq; [assumption|]. intros ->. discriminate Hu.
Qed.

Lemma code_points_no_surrogate (s : jsstring) :
  forallb (fun u => negb (is_high_surrogate u)) s = true ->
  code_points s = map (fun u => [u]) s.
Proof.
  induction s as [|u s IH]; [reflexivity|].
  intros H. cbn [forallb] in H. apply andb_true_iff in H. destruct H as [Hu Hs].
  specialize (IH Hs). cbn [code_points map].
  destruct s as [|v t]; [reflexivity|].
  apply negb_true_iff in Hu. rewrite Hu. cbn [andb]. rewrite IH. reflexivity.
Qed.

Lemma urlencoded_plain_ascii (u : N) :
  urlencoded_plain u = true -> (u < 128)%N /\ u <> 32%N.
Proof.
  unfold urlencoded_plain.
  rewrite !orb_true_iff, !andb_true_iff, !N.eqb_eq, !N.leb_le. lia.
Qed.

Lemma urlencoded_string_plain (s : jsstring) :
  forallb urlencoded_plain s = true -> urlencoded_string s = s.
Proof.
  intros H. unfold urlencoded_string.
  rewrite code_points_no_surrogate.
  - induction s as [|u s IH]; [reflexivity|].
    cbn [forallb] in H. apply andb_true_iff in H. destruct H as [Hu Hs].
    cbn [map]. cbn [flat_map]. rewrite flat_map_app, (IH Hs).
    destruct (urlencoded_plain_ascii u Hu) as [Hlt Hne].
    unfold scalar_value, is_high_surrogate, is_low_surrogate.
    replace (55296 <=? u)%N with false by (symmetry; apply N.leb_gt; lia).
    replace (56320 <=? u)%N with false by (symmetry; apply N.leb_gt; lia).
    cbn [andb orb]. unfold utf8_encode.
    replace (u <? 128)%N with true by (symmetry; apply N.ltb_lt; lia).
    cbn [flat_map app]. unfold urlencoded_byte.
    replace (u =? 32)%N with false by (symmetry; apply N.eqb_neq; assumption).
    rewrite Hu. reflexivity.
  - apply forallb_forall. intros u Hu. rewrite forallb_forall in H.
    destruct (urlencoded_plain_ascii u (H u Hu)) as [Hlt _].
    apply negb_true_iff. unfold is_high_surrogate.
    apply andb_false_iff. left. apply N.leb_gt. lia.
Qed.

(** The four shapes of the result. *)
Lemma buildMoneroUri_shape (opts : MoneroUriOpts) :
  buildMoneroUri opts
  = js "monero:" ++ address opts
    ++ match truthy (amount opts), truthy (description opts) with
       | true, true =>
           js "?tx_amount=" ++ urlencoded_string (string_of (amount opts))
           ++ js "&tx_description="
           ++ urlencoded_string (string_of (description opts))
       | true, false =>
           js "?tx_amount=" ++ urlencoded_string (string_of (amount opts))
       | false, true =>
           js "?tx_description="
           ++ urlencoded_string (string_of (description opts))
       | false, false => []
       end.
Proof.
  unfold buildMoneroUri.
  destruct (truthy (amount opts)), (truthy (description opts));
    cbn [params_set URLSearchParams_toString];
    change (jsstring_eqb (js "tx_amount") (js "tx_description")) with false;
    cbn [params_set URLSearchParams_toString];
    change (urlencoded_string (js "tx_amount")) with (js "tx_amount");
    change (urlencoded_string (js "tx_description")) with (js "tx_description");
    rewrite ?app_nil_r; reflexivity.
Qed.

Example sample_uri :
  buildMoneroUri sample_opts
  = js "monero:4AdUndXHHZ?tx_amount=0.1&tx_description=Coffee+donation".
Proof. vm_compute. reflexivity. Qed.

(** X18. The result is the bare ["monero:" + address] exactly when neither
    an amount nor a description is given (absent or empty); otherwise a
    query follows the address. *)
Theorem buildMoneroUri_bare (opts : MoneroUriOpts) :
  buildMoneroUri opts = js "monero:" ++ address opts
  <-> truthy (amount opts) = false /\ truthy (description opts) = false.
Proof.
  rewrite buildMoneroUri_shape.
  destruct (truthy (amount opts)), (truthy (description opts)); split;
    try (intros [C1 C2]; discriminate);
    try (intros _; split; reflexivity);
    try (intros _; rewrite app_nil_r; reflexivity);
    intros H; apply app_inv_head in H;
    rewrite <- (app_nil_r (address opts)) in H at 2;
    apply app_inv_head in H; discriminate H.
Qed.

Lemma isValueChar_isQueryChar (l : jsstring) :
  forallb isValueChar l = true -> forallb isQueryChar l = true.
Proof.
  intros H. apply forallb_forall. intros u Hu.
  rewrite forallb_forall in H. unfold isQueryChar. rewrite (H u Hu). reflexivity.
Qed.

(** X19. Values cannot add parameters: for 16-bit code units, what follows
    the address is either nothing or ["?"] and a query made only of ASCII
    letters and digits and of [* - . _ + % = &], with one [=] per parameter
    that was set and one [&] between two parameters. *)
Theorem buildMoneroUri_query (opts : MoneroUriOpts) :
  wellFormed (string_of (amount opts)) ->
  wellFormed (string_of (description opts)) ->
  exists qs,
    buildMoneroUri opts
    = js "monero:" ++ address opts
      ++ (if (0 <? paramCount opts)%nat then js "?" ++ qs else [])
    /\ forallb isQueryChar qs = true
    /\ count_occ N.eq_dec qs 61%N = paramCount opts
    /\ count_occ N.eq_dec qs 38%N = (paramCount opts - 1)%nat.
Proof.
  intros Ha Hd. rewrite buildMoneroUri_shape. unfold paramCount.
  pose proof (urlencoded_string_chars _ Ha) as Ca.
  pose proof (urlencoded_string_chars _ Hd) as Cd.
  destruct (value_chars_count _ Ca) as [Ea Aa].
  destruct (value_chars_count _ Cd) as [Ed Ad].
  apply isValueChar_isQueryChar in Ca, Cd.
  destruct (truthy (amount opts)), (truthy (description opts)); cbn [Nat.add Nat.ltb Nat.leb].
  - exists (js "tx_amount=" ++ urlencoded_string (string_of (amount opts))
            ++ js "&tx_description="
            ++ urlencoded_string (string_of (description opts))).
    split; [reflexivity|].
    rewrite !forallb_app, !count_occ_app, Ca, Cd.
    split; [reflexivity|]. unfold codeunit.
    split; [rewrite Ea, Ed | rewrite Aa, Ad]; reflexivity.
  - exists (js "tx_amount=" ++ urlencoded_string (string_of (amount opts))).
    split; [reflexivity|].
    rewrite !forallb_app, !count_occ_app, Ca.
    split; [reflexivity|]. unfold codeunit.
    split; [rewrite Ea | rewrite Aa]; reflexivity.
  - exists (js "tx_description="
            ++ urlencoded_string (string_of (description opts))).
    split; [reflexivity|].
    rewrite !forallb_app, !count_occ_app, Cd.
    split; [reflexivity|]. unfold codeunit.
    split; [rewrite Ed | rewrite Ad]; reflexivity.
  - exists []. repeat split.
Qed.

Lemma buildMoneroUri_query_witness :
  wellFormed (string_of (amount sample_opts))
  /\ wellFormed (string_of (description sample_opts))
  /\ exists qs,
       buildMoneroUri sample_opts
       = js "monero:" ++ address sample_opts
         ++ (if (0 <? paramCount sample_opts)%nat then js "?" ++ qs else [])
       /\ forallb isQueryChar qs = true
       /\ count_occ N.eq_dec qs 61%N = paramCount sample_opts
       /\ count_occ N.eq_dec qs 38%N = (paramCount sample_opts - 1)%nat.
Proof.
  assert (Ha : wellFormed (string_of (amount sample_opts)))
    by (repeat constructor).
  assert (Hd : wellFormed (string_of (description sample_opts)))
    by (repeat constructor).
  exact (conj Ha (conj Hd (buildMoneroUri_query sample_opts Ha Hd))).
Defined.

(** X20. An amount made of ASCII letters, digits and [* - . _] only, such as
    a decimal number, appears in the URI as it is. *)
Theorem buildMoneroUri_plain_amount (opts : MoneroUriOpts) (a : jsstring) :
  amount opts = Some a -> a <> [] -> forallb urlencoded_plain a = true ->
  buildMoneroUri opts
  = js "monero:" ++ address opts ++ js "?tx_amount=" ++ a
    ++ (if truthy (description opts)
        then js "&tx_description="
             ++ urlencoded_string (string_of (description opts))
        else []).
Proof.
  intros Ha Hne Hplain. rewrite buildMoneroUri_shape, Ha.
  assert (Ht : truthy (Some a) = true) by (destruct a; [contradiction|reflexivity]).
  rewrite Ht. cbn [string_of]. rewrite (urlencoded_string_plain a Hplain).
  destruct (truthy (description opts)); [reflexivity|].
  rewrite app_nil_r. reflexivity.
Qed.

Lemma buildMoneroUri_plain_amount_witness :
  amount sample_opts = Some (js "0.1")
  /\ buildMoneroUri sample_opts
     = js "monero:" ++ address sample_opts ++ js "?tx_amount=" ++ js "0.1"
       ++ (if truthy (description sample_opts)
           then js "&tx_description="
                ++ urlencoded_string (string_of (description sample_opts))
           else []).
Proof.
  split; [reflexivity|].
  apply (buildMoneroUri_plain_amount sample_opts (js "0.1"));
    [reflexivity | discriminate | reflexivity].
Defined.
